(** * Hoosat address codec: a shallow embedding of
      [assets/generate-address-standalone.py] and the properties of its
      bech32 variant and of its WIF export.

    Python integers are unbounded, so they are [Z]; the bit operators are
    [Z.land], [Z.lor], [Z.lxor], [Z.shiftl] and [Z.shiftr], which agree with
    Python's on every integer (two's complement, arithmetic right shift).
    Text is a list of characters with code points below 256 (Latin-1),
    the range of every prefix and address the scripts produce; on it
    [str.lower] gives one character of the range per character.  Outside it
    [str.lower] can change the number of characters (U+0130) and the low
    bits of a code point (U+0100), so what is proved of [lower] is proved
    of texts of this range.  A raised exception is a value of [Py.exn]
    carried by [Py.result]. *)

From Stdlib Require Import ZArith Ascii String List Bool Lia.
Import ListNotations.
Open Scope Z_scope.

(** ** The fragment of Python the scripts rely on *)

Module Py.

(** The exceptions the codec can raise.  The four [ValueError]s of
    [hoosat_bech32_decode] and the two of [wif_to_private_key] are told
    apart by their message; [BytesRange] is the [ValueError] of
    [bytes(...)] on an element outside [range(256)]. *)
Inductive exn : Type :=
| InvalidLength (n : nat)       (* "Invalid bech32 string length {n}" *)
| InvalidColonIndex             (* 'Invalid index of ":"' *)
| InvalidCharacter (c : ascii)  (* "Invalid character '{c}'" *)
| ChecksumFailed                (* "Checksum failed" *)
| InvalidWifChecksum            (* "Invalid WIF checksum" *)
| InvalidWifLength              (* "Invalid WIF length" *)
| BytesRange
| TypeError
| IndexError.

Inductive result (A : Type) : Type :=
| Ok (a : A)
| Raise (e : exn).
Arguments Ok {A} a.
Arguments Raise {A} e.

Definition bind {A B} (m : result A) (k : A -> result B) : result B :=
  match m with
  | Ok a => k a
  | Raise e => Raise e
  end.

(** [list] and [bytes] are different sequence types: both hold integers
    here, and [+] joins two sequences of the same type only. *)
Inductive seq : Type :=
| PyList (xs : list Z)
| PyBytes (xs : list Z).

Definition items (s : seq) : list Z :=
  match s with PyList xs | PyBytes xs => xs end.

(** [a + b] on sequences. *)
Definition add (a b : seq) : result seq :=
  match a, b with
  | PyList xs, PyList ys => Ok (PyList (xs ++ ys))
  | PyBytes xs, PyBytes ys => Ok (PyBytes (xs ++ ys))
  | _, _ => Raise TypeError
  end.

Definition byte_range (x : Z) : bool := (0 <=? x) && (x <? 256).

(** [bytes(xs)] for a list of integers. *)
Definition bytes (xs : list Z) : result seq :=
  if forallb byte_range xs then Ok (PyBytes xs) else Raise BytesRange.

(** [xs[:-n]] and [xs[-n:]] for a positive literal [n]. *)
Definition drop_last {A} (n : nat) (xs : list A) : list A :=
  firstn (length xs - n) xs.
Definition take_last {A} (n : nat) (xs : list A) : list A :=
  skipn (length xs - n) xs.

(** [xs[i]]: a negative index counts from the end. *)
Definition index {A} (xs : list A) (i : Z) : result A :=
  let n := Z.of_nat (length xs) in
  let j := if i <? 0 then i + n else i in
  if (0 <=? j) && (j <? n)
  then match nth_error xs (Z.to_nat j) with
       | Some x => Ok x
       | None => Raise IndexError
       end
  else Raise IndexError.

(** [range(n)] *)
Definition range (n : nat) : list Z := map Z.of_nat (List.seq 0 n).

Definition ord (c : ascii) : Z := Z.of_N (N_of_ascii c).
Definition chr (x : Z) : ascii := ascii_of_N (Z.to_N x).

Definition between (lo hi x : Z) : bool := (lo <=? x) && (x <=? hi).

(** [str.lower] on one character below U+0100: the letters A-Z, and in
    the Latin-1 block the capitals U+00C0-U+00DE other than the sign
    U+00D7. *)
Definition lower_char (c : ascii) : ascii :=
  let x := ord c in
  if between 65 90 x || (between 192 222 x && negb (x =? 215))
  then chr (x + 32) else c.

Definition lower (s : list ascii) : list ascii := map lower_char s.

(** [str.upper] on one character.  Three Latin-1 characters have an upper
    case outside the block (U+00B5, U+00DF, U+00FF): no result for them. *)
Definition upper_char (c : ascii) : option ascii :=
  let x := ord c in
  if between 97 122 x || (between 224 254 x && negb (x =? 247))
  then Some (chr (x - 32))
  else if (x =? 181) || (x =? 223) || (x =? 255) then None
  else Some c.

Fixpoint upper (s : list ascii) : option (list ascii) :=
  match s with
  | [] => Some []
  | c :: s' =>
      match upper_char c, upper s' with
      | Some u, Some us => Some (u :: us)
      | _, _ => None
      end
  end.

Definition mem (c : ascii) (s : list ascii) : bool :=
  existsb (Ascii.eqb c) s.

(** [s.index(c)] for a character that occurs in [s]. *)
Fixpoint find (s : list ascii) (c : ascii) : Z :=
  match s with
  | [] => 0
  | d :: s' => if Ascii.eqb d c then 0 else 1 + find s' c
  end.

(** [s.rfind(c)]: the last position of [c], or -1. *)
Fixpoint rfind_from (s : list ascii) (c : ascii) (i found : Z) : Z :=
  match s with
  | [] => found
  | d :: s' => rfind_from s' c (i + 1) (if Ascii.eqb d c then i else found)
  end.
Definition rfind (s : list ascii) (c : ascii) : Z := rfind_from s c 0 (-1).

Definition text (s : string) : list ascii := list_ascii_of_string s.

End Py.

Import Py.

Notation "x <- m ;; k" := (Py.bind m (fun x => k))
  (at level 61, m at next level, right associativity).

(** ** Constants *)

Definition CHARSET : list ascii := text "qpzry9x8gf2tvdw0s3jn54khce6mua7l".
Definition CHECKSUM_LENGTH : nat := 8.
Definition GENERATOR : list Z :=
  [0x98f2bc8e61; 0x79b76d99e2; 0xf33e5fb3c4; 0xae2eabe2a8; 0x1e4f43e470].

(** ** ChecksumEngine *)

(** [polymod_step]: the loop runs over [range(len(GENERATOR))]. *)
Definition polymod_step (prev value : Z) : Z :=
  let b := Z.shiftr prev 35 in
  let c := Z.lxor (Z.shiftl (Z.land prev 0x7ffffffff) 5) value in
  fold_left
    (fun c i =>
       if Z.land (Z.shiftr b i) 1 =? 0 then c
       else Z.lxor c (nth (Z.to_nat i) GENERATOR 0))
    (range (length GENERATOR)) c.

(** The accumulator of [calculate_checksum] when its three loops are done. *)
Definition checksum_polymod (prefix : list ascii) (data : list Z) : Z :=
  let polymod := 1 in
  let polymod :=
    fold_left (fun p char => polymod_step p (Z.land (ord char) 0x1f))
              prefix polymod in
  let polymod := polymod_step polymod 0 in
  let polymod := fold_left polymod_step data polymod in
  fold_left (fun p _ => polymod_step p 0) (range CHECKSUM_LENGTH) polymod.

Definition checksum_symbols (polymod : Z) : list Z :=
  map (fun i => Z.land (Z.shiftr polymod (5 * (7 - i))) 0x1f)
      (range CHECKSUM_LENGTH).

Definition calculate_checksum (prefix : list ascii) (data : list Z)
  : result seq :=
  bytes (checksum_symbols (checksum_polymod prefix data)).

Definition list_eqb (xs ys : list Z) : bool :=
  if list_eq_dec Z.eq_dec xs ys then true else false.

(** The body of the [try] of [verify_checksum]. *)
Definition verify_checksum_body (prefix : list ascii) (data : list Z)
  : result bool :=
  calculated <- calculate_checksum prefix (drop_last CHECKSUM_LENGTH data) ;;
  Ok (list_eqb (take_last CHECKSUM_LENGTH data) (items calculated)).

(** [verify_checksum]: the bare [except] turns every exception into
    [False]. *)
Definition verify_checksum (prefix : list ascii) (data : list Z) : bool :=
  match verify_checksum_body prefix data with
  | Ok b => b
  | Raise _ => false
  end.

(** ** BitRegrouper *)

(** The inner [while filled_bits >= to_bits] loop.  Each round takes
    [to_bits] from [filled_bits], so for a positive [to_bits] it runs at
    most [filled_bits] times: [convert_value] gives it that many rounds
    (see [drain_done]).  A [to_bits] that is not positive is outside the
    model: the Python loop does not end, or a negative shift raises. *)
Fixpoint drain (fuel : nat) (next_byte filled_bits to_bits : Z)
    (regrouped : list Z) : list Z * Z :=
  match fuel with
  | O => (regrouped, filled_bits)
  | S fuel' =>
      if filled_bits >=? to_bits then
        drain fuel' next_byte (filled_bits - to_bits) to_bits
          (regrouped ++
             [Z.land (Z.shiftr next_byte (filled_bits - to_bits))
                     (Z.shiftl 1 to_bits - 1)])
      else (regrouped, filled_bits)
  end.

Record regroup_state : Type := mk_state {
  regrouped : list Z;
  next_byte : Z;
  filled_bits : Z
}.

(** One round of [for value in data]. *)
Definition convert_value (from_bits to_bits : Z) (st : regroup_state)
    (value : Z) : regroup_state :=
  let next_byte := Z.lor (Z.shiftl (next_byte st) from_bits) value in
  let filled_bits := filled_bits st + from_bits in
  let '(regrouped, filled_bits) :=
    drain (Z.to_nat filled_bits) next_byte filled_bits to_bits
          (regrouped st) in
  mk_state regrouped next_byte filled_bits.

Definition convert_loop (data : list Z) (from_bits to_bits : Z)
  : regroup_state :=
  fold_left (convert_value from_bits to_bits) data (mk_state [] 0 0).

Definition convert_bits (data : list Z) (from_bits to_bits : Z) (pad : bool)
  : list Z :=
  let st := convert_loop data from_bits to_bits in
  if pad && (filled_bits st >? 0) then
    regrouped st ++
      [Z.land (Z.shiftl (next_byte st) (to_bits - filled_bits st))
              (Z.shiftl 1 to_bits - 1)]
  else regrouped st.

(** ** AddressCodec *)

(** [encode_to_base32]: [''.join(CHARSET[b] for b in data)] *)
Fixpoint encode_to_base32 (data : list Z) : result (list ascii) :=
  match data with
  | [] => Ok []
  | b :: data' =>
      c <- index CHARSET b ;;
      cs <- encode_to_base32 data' ;;
      Ok (c :: cs)
  end.

(** The loop of [decode_from_base32], [result] being the list built so
    far. *)
Fixpoint decode_chars (s : list ascii) (result : list Z)
  : Py.result (list Z) :=
  match s with
  | [] => Ok result
  | char :: s' =>
      if negb (mem char CHARSET) then Raise (InvalidCharacter char)
      else decode_chars s' (result ++ [find CHARSET char])
  end.

Definition decode_from_base32 (s : list ascii) : result seq :=
  result <- decode_chars (lower s) [] ;;
  bytes result.

(** [hoosat_bech32_encode].  [convert_bits] returns a list and
    [calculate_checksum] a [bytes] object, and line 64 adds the two. *)
Definition hoosat_bech32_encode (prefix : list ascii) (payload : list Z)
  : result (list ascii) :=
  data <- add (PyBytes [0x01]) (PyBytes payload) ;;
  let converted := PyList (convert_bits (items data) 8 5 true) in
  checksum <- calculate_checksum prefix (items converted) ;;
  combined <- add converted checksum ;;
  base32_string <- encode_to_base32 (items combined) ;;
  Ok (prefix ++ text ":" ++ base32_string).

Definition hoosat_bech32_decode (encoded : list ascii)
  : result (list ascii * list Z * Z) :=
  if (length encoded <? CHECKSUM_LENGTH + 2)%nat
  then Raise (InvalidLength (length encoded))
  else
    let normalized := lower encoded in
    let colon_index := rfind normalized ":"%char in
    if (colon_index <? 1) ||
       (colon_index + Z.of_nat CHECKSUM_LENGTH + 1 >?
          Z.of_nat (length normalized))
    then Raise InvalidColonIndex
    else
      let prefix := firstn (Z.to_nat colon_index) normalized in
      let data_string := skipn (Z.to_nat (colon_index + 1)) normalized in
      decoded <- decode_from_base32 data_string ;;
      if negb (verify_checksum prefix (items decoded))
      then Raise ChecksumFailed
      else
        let data_without_checksum :=
          drop_last CHECKSUM_LENGTH (items decoded) in
        let converted := convert_bits data_without_checksum 5 8 false in
        version <- index converted 0 ;;
        payload <- bytes (skipn 1 converted) ;;
        Ok (prefix, items payload, version).


(** The address text that [hoosat_bech32_encode] assembles: the same steps,
    the symbols of [converted] followed by the symbols of [checksum]. *)
Definition address_text (prefix : list ascii) (payload : list Z)
  : result (list ascii) :=
  let data := [0x01] ++ payload in
  let converted := convert_bits data 8 5 true in
  checksum <- calculate_checksum prefix converted ;;
  base32_string <- encode_to_base32 (converted ++ items checksum) ;;
  Ok (prefix ++ text ":" ++ base32_string).

(** [encode] followed by [decode]. *)
Definition encode_then_decode (prefix : list ascii) (payload : list Z)
  : result (list ascii * list Z * Z) :=
  address <- hoosat_bech32_encode prefix payload ;;
  hoosat_bech32_decode address.

(** ** Networks *)

Inductive network : Type := mainnet | testnet.

(** [HoosatAddressGenerator.NETWORK_PREFIXES] *)
Definition NETWORK_PREFIXES : list (network * list ascii) :=
  [(mainnet, text "hoosat"); (testnet, text "hoosattest")].

Definition network_prefix (p : list ascii) : Prop :=
  In p (map snd NETWORK_PREFIXES).

(** ** WIFCodec *)

(** The library calls of the WIF codec: [hashlib.sha256(x).digest()],
    [base58.b58encode(x).decode('ascii')] and [base58.b58decode(s)]. *)
Class WifLibrary : Type := {
  sha256 : list Z -> list Z;
  b58encode : list Z -> list ascii;
  b58decode : list ascii -> result (list Z)
}.

Definition is_byte (x : Z) : Prop := 0 <= x < 256.

(** What the codec needs of them: a digest is 32 bytes, and decoding
    inverts encoding. *)
Class WifLibraryLaws (L : WifLibrary) : Prop := {
  sha256_length : forall x, length (sha256 x) = 32%nat;
  sha256_bytes : forall x, Forall is_byte (sha256 x);
  b58_inverse : forall x, Forall is_byte x -> b58decode (b58encode x) = Ok x
}.

Section WIF.
Context {L : WifLibrary}.

(** [private_key_to_wif] of a generator built for [net]. *)
Definition private_key_to_wif (net : network) (private_key : list Z)
    (compressed : bool) : list ascii :=
  let version_byte :=
    match net with mainnet => [0x80] | testnet => [0xef] end in
  let extended := version_byte ++ private_key in
  let extended := if compressed then extended ++ [0x01] else extended in
  let checksum := firstn 4 (sha256 (sha256 extended)) in
  b58encode (extended ++ checksum).

(** [wif_to_private_key]: the result is the key alone. *)
Definition wif_to_private_key (wif : list ascii) : result (list Z) :=
  decoded <- b58decode wif ;;
  let payload := drop_last 4 decoded in
  let checksum := take_last 4 decoded in
  let calculated_checksum := firstn 4 (sha256 (sha256 payload)) in
  if negb (list_eqb checksum calculated_checksum)
  then Raise InvalidWifChecksum
  else if (length payload =? 33)%nat then Ok (skipn 1 payload)
  else if (length payload =? 34)%nat then Ok (drop_last 1 (skipn 1 payload))
  else Raise InvalidWifLength.
End WIF.

(** A stand-in library for closed examples: a constant digest, and one
    character per byte as the text encoding. *)
Definition example_library : WifLibrary := {|
  sha256 := fun _ => repeat 0 32;
  b58encode := map chr;
  b58decode := fun s => Ok (map ord s)
|}.

(** ** The checksum as the specification words it *)

Module Reference.

(** XOR in the generator constant of every set bit of [top], the
    constants taken in order from bit [i] on. *)
Fixpoint xor_generators (gens : list Z) (i top p : Z) : Z :=
  match gens with
  | [] => p
  | g :: gens' =>
      xor_generators gens' (i + 1) top
        (if Z.testbit top i then Z.lxor p g else p)
  end.

Definition step (p v : Z) : Z :=
  let top := Z.shiftr p 35 in
  let p := Z.lxor (Z.shiftl (Z.land p 0x7FFFFFFFF) 5) v in
  xor_generators GENERATOR 0 top p.

(** The values stepped through, in order: the prefix characters, the
    separator marker, the payload, the eight placeholder zeros. *)
Definition inputs (prefix : list ascii) (payload : list Z) : list Z :=
  map (fun c => Z.land (ord c) 0x1F) prefix ++ [0] ++ payload ++ repeat 0 8.

Definition accumulator (prefix : list ascii) (payload : list Z) : Z :=
  fold_left step (inputs prefix payload) 1.

(** The low 40 bits in 8 groups of 5, the most significant first. *)
Definition groups (acc : Z) : list Z :=
  let low := acc mod 2 ^ 40 in
  map (fun k => (low / 2 ^ (5 * k)) mod 2 ^ 5) [7; 6; 5; 4; 3; 2; 1; 0].

Definition checksum (prefix : list ascii) (payload : list Z) : list Z :=
  groups (accumulator prefix payload).

End Reference.

(** ** Auxiliary notions for the statements *)

(** The values [calculate_checksum] steps through, loop after loop. *)
Definition checksum_inputs (prefix : list ascii) (data : list Z) : list Z :=
  map (fun char => Z.land (ord char) 0x1f) prefix ++ [0] ++ data ++
  map (fun _ => 0) (range CHECKSUM_LENGTH).

(** An integer is [below40] when it is negative or has at most 40 bits. *)
Definition below40 (c : Z) : Prop := c < 0 \/ 0 <= c < 2 ^ 40.

(** The number a symbol sequence spells, [w] bits per symbol, the first
    symbol the most significant. *)
Definition digits_value (w : Z) (xs : list Z) : Z :=
  fold_left (fun a x => a * 2 ^ w + x) xs 0.

Definition fits (w : Z) (x : Z) : Prop := 0 <= x < 2 ^ w.

(** What [convert_loop] maintains once the values [seen] are consumed:
    [next_byte] spells all of them, [regrouped] spells [next_byte] without
    its last [filled_bits] bits, and no bit is counted twice. *)
Definition regroup_inv (from_bits to_bits : Z) (seen : list Z)
    (st : regroup_state) : Prop :=
  0 <= filled_bits st < to_bits /\
  next_byte st = digits_value from_bits seen /\
  Forall (fits to_bits) (regrouped st) /\
  digits_value to_bits (regrouped st) =
    Z.shiftr (next_byte st) (filled_bits st) /\
  Z.of_nat (length (regrouped st)) * to_bits + filled_bits st =
    Z.of_nat (length seen) * from_bits.

(** The steps of [hoosat_bech32_decode] once the text is split at the
    colon. *)
Definition decode_data (prefix data_string : list ascii)
  : result (list ascii * list Z * Z) :=
  decoded <- decode_from_base32 data_string ;;
  if negb (verify_checksum prefix (items decoded))
  then Raise ChecksumFailed
  else
    let data_without_checksum := drop_last CHECKSUM_LENGTH (items decoded) in
    let converted := convert_bits data_without_checksum 5 8 false in
    version <- index converted 0 ;;
    payload <- bytes (skipn 1 converted) ;;
    Ok (prefix, items payload, version).

Definition in_charset (c : ascii) : Prop := mem c CHARSET = true.

Definition colon : ascii := ":"%char.

(** The characters of an address of the two networks. *)
Definition address_chars : list ascii := text "hoosattest:" ++ CHARSET.

(** ** The address generator *)

(** [self.prefix] of a [HoosatAddressGenerator] built for [net]. *)
Definition prefix_of (net : network) : list ascii :=
  match net with
  | mainnet => text "hoosat"
  | testnet => text "hoosattest"
  end.

Definition text_eqb (s t : list ascii) : bool :=
  if list_eq_dec ascii_dec s t then true else false.

(** [validate_address] of a generator whose prefix is [self_prefix]; the
    [except Exception] turns every exception into [False]. *)
Definition validate_address (self_prefix address : list ascii) : bool :=
  match hoosat_bech32_decode address with
  | Ok (prefix, payload, version) =>
      if negb (text_eqb prefix self_prefix) then false
      else if (length payload =? 0)%nat then false
      else true
  | Raise _ => false
  end.

(** The dictionary [get_address_info] returns: the valid one with its
    address, network, prefix, payload (printed in hexadecimal as "hash160")
    and version, or the invalid one with its error. *)
Inductive info_error : Type :=
| UnknownPrefix              (* "Unknown prefix" *)
| Raised (e : exn).          (* str(e) *)

Inductive address_info : Type :=
| Valid (address : list ascii) (net : network) (prefix : list ascii)
        (hash160 : list Z) (version : Z)
| Invalid (error : info_error).

(** The loop over [NETWORK_PREFIXES.items()] that looks the prefix up. *)
Fixpoint network_of_prefix (items : list (network * list ascii))
    (prefix : list ascii) : option network :=
  match items with
  | [] => None
  | (net, pre) :: items' =>
      if text_eqb prefix pre then Some net
      else network_of_prefix items' prefix
  end.

Definition get_address_info (address : list ascii) : address_info :=
  match hoosat_bech32_decode address with
  | Ok (prefix, payload, version) =>
      match network_of_prefix NETWORK_PREFIXES prefix with
      | None => Invalid UnknownPrefix
      | Some net => Valid address net prefix payload version
      end
  | Raise e => Invalid (Raised e)
  end.

(** The hash call of [public_key_to_address]:
    [blake3.blake3(x).digest()]. *)
Class HashLibrary : Type := {
  blake3 : list Z -> list Z
}.

(** [public_key_to_address] of a generator whose prefix is
    [self_prefix]. *)
Definition public_key_to_address {H : HashLibrary}
    (self_prefix : list ascii) (public_key : list Z) : result (list ascii) :=
  let blake3_hash := blake3 public_key in
  let hash160 := firstn 20 blake3_hash in
  hoosat_bech32_encode self_prefix hash160.

(** The five bits of a prefix character that the checksum reads. *)
Definition low5 (char : ascii) : Z := Z.land (ord char) 0x1f.

(** A text whose code points are all below 256. *)
Definition latin1 (s : list ascii) : Prop := Forall (fun c => ord c < 256) s.

(** The number of symbols [convert_bits] returns for [count] values. *)
Definition regroup_length (count from_bits to_bits : Z) (pad : bool) : Z :=
  let total := count * from_bits in
  if pad then (total + to_bits - 1) / to_bits else total / to_bits.

(** [private_key_to_public_key]: the serialized public key the secp256k1
    or ecdsa library computes, [None] when the library raises. *)
Class CurveLibrary : Type := {
  private_key_to_public_key : list Z -> bool -> option (list Z)
}.

(** [generate_address] of a generator built for [net], where [private_key]
    is what [generate_private_key] drew; [None] when the key derivation
    raises. *)
Definition generate_address {L : WifLibrary} {H : HashLibrary}
    {C : CurveLibrary} (net : network) (private_key : list Z)
    (compressed : bool)
  : option (result (list ascii * list ascii * list Z)) :=
  match private_key_to_public_key private_key compressed with
  | None => None
  | Some public_key =>
      Some (address <- public_key_to_address (prefix_of net) public_key ;;
            let wif := private_key_to_wif net private_key compressed in
            Ok (address, wif, private_key))
  end.

(** * Properties *)

(** ** Python helpers *)

Lemma bytes_ok (xs : list Z) :
  Forall (fun x => 0 <= x < 256) xs -> bytes xs = Ok (PyBytes xs).
Proof.
  intros H. unfold bytes.
  replace (forallb byte_range xs) with true; [reflexivity|].
  symmetry. apply forallb_forall. intros x Hx.
  rewrite Forall_forall in H. specialize (H x Hx).
  unfold byte_range. apply andb_true_intro. split.
  - apply Z.leb_le. lia.
  - apply Z.ltb_lt. lia.
Qed.

Lemma list_eqb_eq (xs ys : list Z) : list_eqb xs ys = true <-> xs = ys.
Proof.
  unfold list_eqb. destruct (list_eq_dec Z.eq_dec xs ys); split; congruence.
Qed.

Lemma land_ones_range (x : Z) (n : Z) :
  0 <= n -> 0 <= Z.land x (Z.ones n) < 2 ^ n.
Proof.
  intros Hn. rewrite Z.land_ones by assumption.
  apply Z.mod_pos_bound. apply Z.pow_pos_nonneg; lia.
Qed.

Lemma lxor_below (n a b : Z) :
  0 <= n -> 0 <= a < 2 ^ n -> 0 <= b < 2 ^ n -> 0 <= Z.lxor a b < 2 ^ n.
Proof.
  intros Hn Ha Hb.
  assert (H0 : 0 <= Z.lxor a b) by (apply Z.lxor_nonneg; lia).
  split; [assumption|].
  destruct (Z.eq_dec (Z.lxor a b) 0) as [E|E].
  { rewrite E. apply Z.pow_pos_nonneg; lia. }
  apply Z.log2_lt_pow2; [lia|].
  pose proof (Z.log2_lxor a b (proj1 Ha) (proj1 Hb)) as Hl.
  assert (La : a = 0 \/ Z.log2 a < n).
  { destruct (Z.eq_dec a 0); [left; assumption|right].
    apply Z.log2_lt_pow2; lia. }
  assert (Lb : b = 0 \/ Z.log2 b < n).
  { destruct (Z.eq_dec b 0); [left; assumption|right].
    apply Z.log2_lt_pow2; lia. }
  destruct La as [-> | La], Lb as [-> | Lb].
  - rewrite Z.lxor_0_l in E. congruence.
  - rewrite Z.lxor_0_l. assumption.
  - rewrite Z.lxor_0_r. assumption.
  - lia.
Qed.

(** ** The checksum accumulator *)

Lemma below40_lxor (c g : Z) :
  below40 c -> 0 <= g < 2 ^ 40 -> below40 (Z.lxor c g).
Proof.
  intros [Hc | Hc] Hg.
  - left. apply Z.nle_gt. intros H. apply Z.lxor_nonneg in H. lia.
  - right. apply lxor_below; lia.
Qed.

Lemma generator_below (i : nat) : 0 <= nth i GENERATOR 0 < 2 ^ 40.
Proof.
  do 5 (destruct i as [|i]; [simpl; lia|]).
  destruct i; simpl; lia.
Qed.

Lemma polymod_step_below40 (prev value : Z) :
  value < 32 -> below40 (polymod_step prev value).
Proof.
  intros Hv. unfold polymod_step.
  set (b := Z.shiftr prev 35).
  set (c := Z.lxor _ value).
  assert (Hc : below40 c).
  { subst c.
    assert (Hs : 0 <= Z.shiftl (Z.land prev 0x7ffffffff) 5 < 2 ^ 40).
    { pose proof (land_ones_range prev 35 ltac:(lia)) as H.
      change (Z.ones 35) with 0x7ffffffff in H.
      rewrite Z.shiftl_mul_pow2 by lia.
      change (2 ^ 40) with (2 ^ 35 * 2 ^ 5). lia. }
    destruct (Z.neg_nonneg_cases value) as [Hn | Hn].
    - left. apply Z.nle_gt. intros H. apply Z.lxor_nonneg in H. lia.
    - right. apply lxor_below; lia. }
  clearbody c b. revert c Hc.
  generalize (range (length GENERATOR)) as idx.
  induction idx as [|i idx IH]; intros c Hc; simpl; [assumption|].
  apply IH. destruct (Z.land (Z.shiftr b i) 1 =? 0); [assumption|].
  apply below40_lxor; [assumption|apply generator_below].
Qed.

Lemma polymod_step_nonneg (prev value : Z) :
  0 <= value -> 0 <= polymod_step prev value.
Proof.
  intros Hv. unfold polymod_step.
  set (b := Z.shiftr prev 35).
  set (c := Z.lxor _ value).
  assert (Hc : 0 <= c).
  { subst c. apply Z.lxor_nonneg. split; intros _; [assumption|].
    apply Z.shiftl_nonneg.
    apply (land_ones_range prev 35). lia. }
  clearbody c b. revert c Hc.
  generalize (range (length GENERATOR)) as idx.
  induction idx as [|i idx IH]; intros c Hc; simpl; [assumption|].
  apply IH. destruct (Z.land (Z.shiftr b i) 1 =? 0); [assumption|].
  apply Z.lxor_nonneg. split; intros _; [|assumption].
  apply (generator_below (Z.to_nat i)).
Qed.

Lemma polymod_step_range (prev value : Z) :
  0 <= value < 32 -> 0 <= polymod_step prev value < 2 ^ 40.
Proof.
  intros Hv.
  pose proof (polymod_step_nonneg prev value (proj1 Hv)).
  destruct (polymod_step_below40 prev value (proj2 Hv)); lia.
Qed.

Lemma checksum_polymod_fold (prefix : list ascii) (data : list Z) :
  checksum_polymod prefix data =
  fold_left polymod_step (checksum_inputs prefix data) 1.
Proof.
  unfold checksum_polymod, checksum_inputs.
  rewrite !fold_left_app. cbn [fold_left].
  assert (Hmap : forall (A : Type) (f : A -> Z) (l : list A) (p : Z),
             fold_left (fun p a => polymod_step p (f a)) l p =
             fold_left polymod_step (map f l) p).
  { intros A f l. induction l as [|a l IH]; intros p; [reflexivity|].
    cbn [map fold_left]. apply IH. }
  rewrite <- !Hmap. reflexivity.
Qed.

Lemma fold_polymod_range (inputs : list Z) :
  Forall (fits 5) inputs ->
  forall p, 0 <= p < 2 ^ 40 ->
  0 <= fold_left polymod_step inputs p < 2 ^ 40.
Proof.
  induction 1 as [|v inputs Hv _ IH]; intros p Hp; cbn [fold_left].
  - assumption.
  - apply IH. apply polymod_step_range. exact Hv.
Qed.

Lemma checksum_inputs_fit (prefix : list ascii) (data : list Z) :
  Forall (fits 5) data -> Forall (fits 5) (checksum_inputs prefix data).
Proof.
  intros Hd. unfold checksum_inputs.
  apply Forall_app. split; [|apply Forall_app; split; [|apply Forall_app; split]].
  - apply Forall_forall. intros x Hx. apply in_map_iff in Hx.
    destruct Hx as [c [<- _]]. apply (land_ones_range (ord c) 5). lia.
  - constructor; [|constructor]. unfold fits. lia.
  - assumption.
  - apply Forall_forall. intros x Hx. apply in_map_iff in Hx.
    destruct Hx as [c [<- _]]. unfold fits. lia.
Qed.

Lemma checksum_symbols_unfold (acc : Z) :
  checksum_symbols acc =
  [Z.land (Z.shiftr acc 35) 31; Z.land (Z.shiftr acc 30) 31;
   Z.land (Z.shiftr acc 25) 31; Z.land (Z.shiftr acc 20) 31;
   Z.land (Z.shiftr acc 15) 31; Z.land (Z.shiftr acc 10) 31;
   Z.land (Z.shiftr acc 5) 31; Z.land (Z.shiftr acc 0) 31].
Proof. reflexivity. Qed.

Lemma symbol_as_div (acc k : Z) :
  0 <= k -> Z.land (Z.shiftr acc k) 31 = (acc / 2 ^ k) mod 32.
Proof.
  intros Hk. change 31 with (Z.ones 5).
  rewrite Z.land_ones by lia. rewrite Z.shiftr_div_pow2 by assumption.
  reflexivity.
Qed.

Lemma checksum_symbols_fit (acc : Z) : Forall (fits 5) (checksum_symbols acc).
Proof.
  rewrite checksum_symbols_unfold.
  repeat constructor; apply (land_ones_range _ 5); lia.
Qed.

Lemma checksum_symbols_length (acc : Z) :
  length (checksum_symbols acc) = 8%nat.
Proof. reflexivity. Qed.

Lemma checksum_symbols_value (acc : Z) :
  0 <= acc < 2 ^ 40 -> digits_value 5 (checksum_symbols acc) = acc.
Proof.
  intros Hacc. rewrite checksum_symbols_unfold.
  unfold digits_value. cbn [fold_left].
  rewrite !symbol_as_div by lia.
  change (2 ^ 40) with 1099511627776 in Hacc.
  change (2 ^ 35) with 34359738368. change (2 ^ 30) with 1073741824.
  change (2 ^ 25) with 33554432. change (2 ^ 20) with 1048576.
  change (2 ^ 15) with 32768. change (2 ^ 10) with 1024.
  change (2 ^ 5) with 32. change (2 ^ 0) with 1.
  Z.div_mod_to_equations. lia.
Qed.

Lemma calculate_checksum_ok (prefix : list ascii) (data : list Z) :
  calculate_checksum prefix data =
  Ok (PyBytes (checksum_symbols (checksum_polymod prefix data))).
Proof.
  unfold calculate_checksum. apply bytes_ok.
  eapply Forall_impl; [|apply checksum_symbols_fit].
  unfold fits. intros x Hx. change (2 ^ 5) with 32 in Hx. lia.
Qed.

(** C9.  The accumulator keeps to 40 bits: one step of [polymod_step]
    started below [2^40] with a value below 32 ends below [2^40]; so,
    seeded with 1 and fed 5-bit symbols, the accumulator of
    [calculate_checksum] lies in [0, 2^40) after every step, the eight
    groups of five bits taken at the end spell the whole accumulator, and
    each of them is a 5-bit value. *)
Theorem polymod_stays_below_2_40 (prefix : list ascii) (data : list Z) :
  Forall (fits 5) data ->
  (forall p v, p < 2 ^ 40 -> v < 32 -> polymod_step p v < 2 ^ 40) /\
  (forall k, 0 <= fold_left polymod_step
                    (firstn k (checksum_inputs prefix data)) 1 < 2 ^ 40) /\
  0 <= checksum_polymod prefix data < 2 ^ 40 /\
  digits_value 5 (checksum_symbols (checksum_polymod prefix data)) =
    checksum_polymod prefix data /\
  Forall (fits 5) (checksum_symbols (checksum_polymod prefix data)).
Proof.
  intros Hd.
  assert (Hall : forall k, 0 <= fold_left polymod_step
             (firstn k (checksum_inputs prefix data)) 1 < 2 ^ 40).
  { intros k. apply fold_polymod_range; [|lia].
    apply Forall_forall. intros x Hx.
    pose proof (checksum_inputs_fit prefix data Hd) as Hf.
    rewrite Forall_forall in Hf. apply Hf.
    rewrite <- (firstn_skipn k (checksum_inputs prefix data)).
    apply in_or_app. left. assumption. }
  assert (Hacc : 0 <= checksum_polymod prefix data < 2 ^ 40).
  { rewrite checksum_polymod_fold.
    rewrite <- (firstn_all (checksum_inputs prefix data)). apply Hall. }
  repeat split; try apply Hall; try apply Hacc.
  - intros p v _ Hv. destruct (polymod_step_below40 p v Hv); lia.
  - apply checksum_symbols_value. assumption.
  - apply checksum_symbols_fit.
Qed.

Lemma polymod_stays_below_2_40_witness :
  Forall (fits 5) [3; 31] /\
  0 <= checksum_polymod (text "hoosat") [3; 31] < 2 ^ 40.
Proof.
  assert (H : Forall (fits 5) [3; 31]).
  { repeat constructor; unfold fits; simpl; lia. }
  split; [exact H|].
  exact (proj1 (proj2 (proj2
           (polymod_stays_below_2_40 (text "hoosat") [3; 31] H)))).
Defined.

(** ** The checksum against its reference definition *)

Lemma land1_testbit (b i : Z) :
  (Z.land (Z.shiftr b i) 1 =? 0) = negb (Z.testbit b i).
Proof.
  rewrite Z.testbit_odd. change 1 with (Z.ones 1) at 1.
  rewrite Z.land_ones by lia. change (2 ^ 1) with 2.
  rewrite Zmod_odd. destruct (Z.odd (Z.shiftr b i)); reflexivity.
Qed.

Lemma generator_loop_eq (b : Z) (gens : list Z) :
  forall (k : nat) (c : Z),
    (forall j, nth j gens 0 = nth (k + j) GENERATOR 0) ->
    fold_left
      (fun c i =>
         if Z.land (Z.shiftr b i) 1 =? 0 then c
         else Z.lxor c (nth (Z.to_nat i) GENERATOR 0))
      (map Z.of_nat (List.seq k (length gens))) c =
    Reference.xor_generators gens (Z.of_nat k) b c.
Proof.
  induction gens as [|g gens IH]; intros k c Hnth; [reflexivity|].
  cbn [length List.seq map fold_left Reference.xor_generators].
  rewrite land1_testbit, Nat2Z.id.
  replace (Z.of_nat k + 1) with (Z.of_nat (S k)) by lia.
  rewrite <- IH.
  - f_equal. specialize (Hnth 0%nat). rewrite Nat.add_0_r in Hnth.
    cbn [nth] in Hnth. rewrite <- Hnth.
    destruct (Z.testbit b (Z.of_nat k)); reflexivity.
  - intros j. specialize (Hnth (S j)). cbn [nth] in Hnth.
    rewrite Hnth. f_equal. lia.
Qed.

Lemma polymod_step_reference (p v : Z) :
  polymod_step p v = Reference.step p v.
Proof.
  unfold polymod_step, Reference.step, range.
  apply (generator_loop_eq (Z.shiftr p 35) GENERATOR 0).
  intros j. reflexivity.
Qed.

Lemma fold_polymod_reference (inputs : list Z) :
  forall p, fold_left polymod_step inputs p =
            fold_left Reference.step inputs p.
Proof.
  induction inputs as [|v inputs IH]; intros p; [reflexivity|].
  cbn [fold_left]. rewrite polymod_step_reference. apply IH.
Qed.

Lemma group_as_symbol (acc k : Z) :
  0 <= k <= 7 ->
  ((acc mod 2 ^ 40) / 2 ^ (5 * k)) mod 2 ^ 5 =
  Z.land (Z.shiftr acc (5 * k)) 31.
Proof.
  intros Hk. change 31 with (Z.ones 5).
  rewrite Z.land_ones by lia. rewrite Z.shiftr_div_pow2 by lia.
  apply Z.bits_inj'. intros n Hn.
  destruct (Z.ltb_spec n 5) as [Hlt | Hge].
  - rewrite !Z.mod_pow2_bits_low by lia.
    rewrite !Z.div_pow2_bits by lia.
    apply Z.mod_pow2_bits_low. lia.
  - rewrite !Z.mod_pow2_bits_high by lia. reflexivity.
Qed.

Lemma checksum_symbols_reference (acc : Z) :
  checksum_symbols acc = Reference.groups acc.
Proof.
  rewrite checksum_symbols_unfold. unfold Reference.groups. cbn [map].
  rewrite (group_as_symbol acc 7), (group_as_symbol acc 6),
    (group_as_symbol acc 5), (group_as_symbol acc 4),
    (group_as_symbol acc 3), (group_as_symbol acc 2),
    (group_as_symbol acc 1), (group_as_symbol acc 0) by lia.
  reflexivity.
Qed.

(** C2.  For every prefix and every sequence of payload symbols,
    [calculate_checksum] returns the bytes of the reference checksum: the
    accumulator seeded with 1, stepped once per prefix character with
    [ord(char) & 0x1F], once with 0, once per payload symbol and eight more
    times with 0, its low 40 bits cut into eight groups of five, the most
    significant first. *)
Theorem calculate_checksum_reference (prefix : list ascii) (data : list Z) :
  calculate_checksum prefix data =
  Ok (PyBytes (Reference.checksum prefix data)).
Proof.
  rewrite calculate_checksum_ok. do 2 f_equal.
  unfold Reference.checksum, Reference.accumulator.
  rewrite <- checksum_symbols_reference. f_equal.
  rewrite checksum_polymod_fold, fold_polymod_reference.
  reflexivity.
Qed.

(** ** Verification of a checksum *)

Lemma verify_checksum_eq (prefix : list ascii) (data : list Z) :
  verify_checksum_body prefix data =
  Ok (list_eqb (take_last CHECKSUM_LENGTH data)
        (checksum_symbols
           (checksum_polymod prefix (drop_last CHECKSUM_LENGTH data)))).
Proof.
  unfold verify_checksum_body. rewrite calculate_checksum_ok. reflexivity.
Qed.

(** C7.  For every prefix and every symbol sequence the checksum of the
    sequence without its last eight symbols is computed without an
    exception, so the [try] of [verify_checksum] raises nothing and the
    function returns a boolean: true exactly when the last eight symbols
    are that checksum, and false for a sequence of fewer than eight
    symbols. *)
Theorem verify_checksum_decides (prefix : list ascii) (data : list Z) :
  exists calculated,
    calculate_checksum prefix (drop_last CHECKSUM_LENGTH data) =
      Ok (PyBytes calculated) /\
    verify_checksum_body prefix data = Ok (verify_checksum prefix data) /\
    (verify_checksum prefix data = true <->
     take_last CHECKSUM_LENGTH data = calculated) /\
    ((length data < 8)%nat -> verify_checksum prefix data = false).
Proof.
  eexists. split; [apply calculate_checksum_ok|].
  unfold verify_checksum. rewrite verify_checksum_eq.
  split; [reflexivity|]. split; [apply list_eqb_eq|].
  intros Hlen.
  destruct (list_eqb _ _) eqn:E; [|reflexivity].
  apply list_eqb_eq in E. apply (f_equal (@length Z)) in E.
  rewrite checksum_symbols_length in E.
  unfold take_last in E. rewrite length_skipn in E.
  unfold CHECKSUM_LENGTH in E. lia.
Qed.

Lemma verify_checksum_decides_witness :
  (length [1; 2; 3] < 8)%nat /\ verify_checksum (text "hoosat") [1; 2; 3] = false.
Proof.
  assert (H : (length [1; 2; 3] < 8)%nat) by (simpl; lia).
  split; [exact H|].
  destruct (verify_checksum_decides (text "hoosat") [1; 2; 3])
    as [calculated [_ [_ [_ Hshort]]]].
  exact (Hshort H).
Defined.

(** ** Regrouping bits *)

Lemma digits_value_snoc (w : Z) (xs : list Z) (x : Z) :
  digits_value w (xs ++ [x]) = digits_value w xs * 2 ^ w + x.
Proof. unfold digits_value. rewrite fold_left_app. reflexivity. Qed.

Lemma mask_ones (n : Z) : Z.shiftl 1 n - 1 = Z.ones n.
Proof. unfold Z.ones. lia. Qed.

Lemma shiftr_split (a n : Z) :
  0 <= n -> Z.shiftr a n * 2 ^ n + a mod 2 ^ n = a.
Proof.
  intros Hn. rewrite Z.shiftr_div_pow2 by assumption.
  pose proof (Z.div_mod a (2 ^ n)) as H.
  assert (0 < 2 ^ n) by (apply Z.pow_pos_nonneg; lia). lia.
Qed.

Lemma drain_spec (to_bits : Z) :
  0 < to_bits ->
  forall (fuel : nat) (nb fb : Z) (out : list Z),
    0 <= fb -> (Z.to_nat fb <= fuel)%nat ->
    Forall (fits to_bits) out ->
    digits_value to_bits out = Z.shiftr nb fb ->
    let r := drain fuel nb fb to_bits out in
    0 <= snd r < to_bits /\
    Forall (fits to_bits) (fst r) /\
    digits_value to_bits (fst r) = Z.shiftr nb (snd r) /\
    Z.of_nat (length (fst r)) * to_bits + snd r =
      Z.of_nat (length out) * to_bits + fb.
Proof.
  intros Hto. induction fuel as [|fuel IH]; intros nb fb out Hfb Hfuel Hout Hval.
  - cbn. repeat split; try assumption; lia.
  - cbn [drain]. rewrite Z.geb_leb.
    destruct (Z.leb_spec to_bits fb) as [Hge | Hlt].
    + set (d := Z.land _ _).
      assert (Hd : d = Z.shiftr nb (fb - to_bits) mod 2 ^ to_bits).
      { subst d. rewrite mask_ones. apply Z.land_ones. lia. }
      specialize (IH nb (fb - to_bits) (out ++ [d])).
      cbv zeta in IH |- *.
      destruct IH as [H1 [H2 [H3 H4]]].
      * lia.
      * lia.
      * apply Forall_app. split; [assumption|].
        constructor; [|constructor]. rewrite Hd. unfold fits.
        apply Z.mod_pos_bound. apply Z.pow_pos_nonneg; lia.
      * rewrite digits_value_snoc, Hval, Hd.
        replace (Z.shiftr nb fb)
          with (Z.shiftr (Z.shiftr nb (fb - to_bits)) to_bits).
        { apply shiftr_split. lia. }
        rewrite Z.shiftr_shiftr by lia. f_equal. lia.
      * repeat split; try assumption; try lia.
        rewrite H4. rewrite length_app. cbn [length].
        rewrite Nat2Z.inj_add. change (Z.of_nat 1) with 1. lia.
    + cbn. repeat split; try assumption; lia.
Qed.

Lemma lor_shiftl_add (a n v : Z) :
  0 <= n -> 0 <= v < 2 ^ n -> Z.lor (Z.shiftl a n) v = a * 2 ^ n + v.
Proof.
  intros Hn Hv. rewrite <- Z.shiftl_mul_pow2 by assumption.
  assert (Hdisj : Z.land (Z.shiftl a n) v = 0).
  { apply Z.bits_inj'. intros i Hi. rewrite Z.land_spec, Z.bits_0.
    destruct (Z.ltb_spec i n) as [Hlt | Hge].
    - rewrite Z.shiftl_spec_low by assumption. reflexivity.
    - replace v with (v mod 2 ^ n) by (apply Z.mod_small; assumption).
      rewrite Z.mod_pow2_bits_high by lia. apply andb_false_r. }
  rewrite Z.add_nocarry_lxor by assumption.
  symmetry. apply Z.lxor_lor. assumption.
Qed.

Lemma convert_value_inv (from_bits to_bits : Z) (seen : list Z)
    (st : regroup_state) (value : Z) :
  0 < from_bits -> 0 < to_bits -> fits from_bits value ->
  regroup_inv from_bits to_bits seen st ->
  regroup_inv from_bits to_bits (seen ++ [value])
              (convert_value from_bits to_bits st value).
Proof.
  intros Hfrom Hto Hv [Hfb [Hnb [Hout [Hval Hlen]]]].
  unfold convert_value.
  set (nb := Z.lor _ value).
  assert (Enb : nb = next_byte st * 2 ^ from_bits + value).
  { apply lor_shiftl_add; [lia|exact Hv]. }
  assert (Eshift : Z.shiftr nb from_bits = next_byte st).
  { rewrite Z.shiftr_div_pow2 by lia. rewrite Enb.
    rewrite Z.div_add_l by (apply Z.pow_nonzero; lia).
    rewrite Z.div_small by exact Hv. lia. }
  pose proof (drain_spec to_bits Hto
                (Z.to_nat (filled_bits st + from_bits)) nb
                (filled_bits st + from_bits) (regrouped st)) as Hd.
  cbv zeta in Hd.
  destruct (drain _ nb _ to_bits _) as [out fb].
  cbn [fst snd] in Hd.
  destruct Hd as [H1 [H2 [H3 H4]]]; try lia; try assumption.
  { rewrite Hval, <- Eshift. rewrite Z.shiftr_shiftr by lia.
    f_equal. lia. }
  unfold regroup_inv. cbn [filled_bits next_byte regrouped].
  repeat split; try assumption; try lia.
  - rewrite digits_value_snoc, <- Hnb. exact Enb.
  - rewrite H4, length_app. cbn [length].
    rewrite Nat2Z.inj_add. change (Z.of_nat 1) with 1. lia.
Qed.

Lemma convert_loop_inv (from_bits to_bits : Z) (data : list Z) :
  0 < from_bits -> 0 < to_bits -> Forall (fits from_bits) data ->
  regroup_inv from_bits to_bits data (convert_loop data from_bits to_bits).
Proof.
  intros Hfrom Hto Hdata. unfold convert_loop.
  assert (Hgen : forall rest seen st,
             Forall (fits from_bits) rest ->
             regroup_inv from_bits to_bits seen st ->
             regroup_inv from_bits to_bits (seen ++ rest)
               (fold_left (convert_value from_bits to_bits) rest st)).
  { induction rest as [|v rest IH]; intros seen st Hrest Hinv.
    - rewrite app_nil_r. exact Hinv.
    - inversion Hrest as [|? ? Hv Hrest']; subst. cbn [fold_left].
      replace (seen ++ v :: rest) with ((seen ++ [v]) ++ rest)
        by (rewrite <- app_assoc; reflexivity).
      apply IH; [assumption|].
      apply convert_value_inv; assumption. }
  apply (Hgen data [] (mk_state [] 0 0) Hdata).
  unfold regroup_inv. cbn. repeat split; try lia. constructor.
Qed.

Lemma convert_bits_unpadded_spec (data : list Z) (from_bits to_bits : Z) :
  0 < from_bits -> 0 < to_bits -> Forall (fits from_bits) data ->
  let out := convert_bits data from_bits to_bits false in
  let total := Z.of_nat (length data) * from_bits in
  Z.of_nat (length out) = total / to_bits /\
  Forall (fits to_bits) out /\
  digits_value to_bits out =
    Z.shiftr (digits_value from_bits data) (total mod to_bits).
Proof.
  intros Hfrom Hto Hdata.
  destruct (convert_loop_inv from_bits to_bits data Hfrom Hto Hdata)
    as [Hfb [Hnb [Hout [Hval Hlen]]]].
  unfold convert_bits. cbn [andb]. cbv zeta.
  assert (Hmod : filled_bits (convert_loop data from_bits to_bits) =
                 (Z.of_nat (length data) * from_bits) mod to_bits).
  { apply Z.mod_unique with
      (q := Z.of_nat (length (regrouped (convert_loop data from_bits to_bits)))).
    - left. exact Hfb.
    - lia. }
  repeat split.
  - apply Z.div_unique with
      (r := filled_bits (convert_loop data from_bits to_bits)).
    + left. exact Hfb.
    + lia.
  - exact Hout.
  - rewrite Hval, Hnb, Hmod. reflexivity.
Qed.

Lemma convert_bits_padded_spec (data : list Z) (from_bits to_bits : Z) :
  0 < from_bits -> 0 < to_bits -> Forall (fits from_bits) data ->
  let out := convert_bits data from_bits to_bits true in
  Forall (fits to_bits) out /\
  exists p, 0 <= p < to_bits /\
    Z.of_nat (length out) * to_bits =
      Z.of_nat (length data) * from_bits + p /\
    digits_value to_bits out = digits_value from_bits data * 2 ^ p.
Proof.
  intros Hfrom Hto Hdata.
  destruct (convert_loop_inv from_bits to_bits data Hfrom Hto Hdata)
    as [Hfb [Hnb [Hout [Hval Hlen]]]].
  unfold convert_bits. cbn [andb]. cbv zeta.
  set (st := convert_loop data from_bits to_bits) in *.
  rewrite Z.gtb_ltb. destruct (Z.ltb_spec 0 (filled_bits st)) as [Hpos | Hzero].
  - set (p := to_bits - filled_bits st).
    set (d := Z.land _ _).
    assert (Hpow : 2 ^ to_bits = 2 ^ filled_bits st * 2 ^ p).
    { rewrite <- Z.pow_add_r by lia. f_equal. lia. }
    assert (H2f : 0 < 2 ^ filled_bits st) by (apply Z.pow_pos_nonneg; lia).
    assert (H2p : 0 < 2 ^ p) by (apply Z.pow_pos_nonneg; lia).
    pose proof (shiftr_split (next_byte st) (filled_bits st) (proj1 Hfb))
      as Hsplit.
    pose proof (Z.mod_pos_bound (next_byte st) (2 ^ filled_bits st) H2f)
      as Hm.
    set (q := Z.shiftr (next_byte st) (filled_bits st)) in *.
    set (m := next_byte st mod 2 ^ filled_bits st) in *.
    assert (Hd : d = m * 2 ^ p).
    { subst d. rewrite mask_ones, Z.land_ones by lia.
      rewrite Z.shiftl_mul_pow2 by lia. fold p.
      replace (next_byte st * 2 ^ p) with (m * 2 ^ p + q * 2 ^ to_bits)
        by (rewrite Hpow, <- Hsplit; ring).
      rewrite Z.mod_add by lia.
      apply Z.mod_small. rewrite Hpow. nia. }
    split.
    + apply Forall_app. split; [exact Hout|].
      constructor; [|constructor]. unfold fits. rewrite Hd, Hpow. nia.
    + exists p. split; [lia|]. split.
      * rewrite length_app. cbn [length]. rewrite Nat2Z.inj_add.
        change (Z.of_nat 1) with 1. lia.
      * rewrite digits_value_snoc, Hval, Hd, <- Hnb, <- Hsplit, Hpow. ring.
  - split; [exact Hout|]. exists 0. split; [lia|]. split; [lia|].
    assert (E : filled_bits st = 0) by lia.
    rewrite Hval, E, Z.shiftr_0_r, Hnb. change (2 ^ 0) with 1. ring.
Qed.

Lemma digits_unique (w : Z) :
  0 < w ->
  forall xs ys : list Z,
    Forall (fits w) xs -> Forall (fits w) ys ->
    length xs = length ys ->
    digits_value w xs = digits_value w ys -> xs = ys.
Proof.
  intros Hw. induction xs as [|x xs IH] using rev_ind; intros ys Hxs Hys Hlen Hval.
  - destruct ys; [reflexivity|discriminate].
  - destruct ys as [|y0 ys0] using rev_ind.
    { rewrite length_app in Hlen. cbn in Hlen. lia. }
    clear IHys0.
    apply Forall_app in Hxs. destruct Hxs as [Hxs Hx].
    apply Forall_app in Hys. destruct Hys as [Hys Hy].
    inversion Hx as [|? ? Hx' _]; subst.
    inversion Hy as [|? ? Hy' _]; subst.
    rewrite !digits_value_snoc in Hval.
    rewrite !length_app in Hlen. cbn [length] in Hlen.
    unfold fits in Hx', Hy'.
    assert (Hq : digits_value w xs = digits_value w ys0 /\ x = y0).
    { apply (Z.div_mod_unique (2 ^ w)); [left; assumption..|lia]. }
    destruct Hq as [Hq ->]. f_equal. apply IH; try assumption. lia.
Qed.

Lemma convert_bits_roundtrip (data : list Z) :
  Forall (fits 8) data ->
  convert_bits (convert_bits data 8 5 true) 5 8 false = data.
Proof.
  intros Hdata.
  destruct (convert_bits_padded_spec data 8 5 ltac:(lia) ltac:(lia) Hdata)
    as [Hfit [p [Hp [Hlen Hval]]]].
  set (symbols := convert_bits data 8 5 true) in *.
  destruct (convert_bits_unpadded_spec symbols 5 8 ltac:(lia) ltac:(lia) Hfit)
    as [Hlen' [Hfit' Hval']].
  assert (Hmod : (Z.of_nat (length symbols) * 5) mod 8 = p).
  { rewrite Hlen. symmetry.
    apply Z.mod_unique with (q := Z.of_nat (length data)); lia. }
  assert (Hdiv : (Z.of_nat (length symbols) * 5) / 8 = Z.of_nat (length data)).
  { rewrite Hlen. symmetry.
    apply Z.div_unique with (r := p); lia. }
  apply (digits_unique 8); try assumption; try lia.
  rewrite Hval', Hmod, Hval.
  rewrite Z.shiftr_div_pow2 by lia.
  apply Z.div_mul. apply Z.pow_nonzero; lia.
Qed.

(** ** Text *)

Lemma lower_length (s : list ascii) : length (lower s) = length s.
Proof. apply length_map. Qed.

Lemma lower_char_idem (c : ascii) : lower_char (lower_char c) = lower_char c.
Proof. destruct c as [[] [] [] [] [] [] [] []]; reflexivity. Qed.

Lemma lower_idem (s : list ascii) : lower (lower s) = lower s.
Proof.
  unfold lower. rewrite map_map. apply map_ext. apply lower_char_idem.
Qed.

Lemma upper_char_lower (c u : ascii) :
  upper_char c = Some u -> lower_char u = lower_char c.
Proof.
  intros H.
  destruct c as [[] [] [] [] [] [] [] []]; vm_compute in H;
    try discriminate H; injection H as <-; reflexivity.
Qed.

Lemma upper_lower (s u : list ascii) : upper s = Some u -> lower u = lower s.
Proof.
  revert u. induction s as [|c s IH]; intros u H; cbn [upper] in H.
  - injection H as <-. reflexivity.
  - destruct (upper_char c) as [uc|] eqn:Ec; [|discriminate].
    destruct (upper s) as [us|]; [|discriminate].
    injection H as <-. cbn [lower map].
    rewrite (upper_char_lower c uc Ec). f_equal. apply IH. reflexivity.
Qed.

Lemma rfind_from_absent (c : ascii) (s : list ascii) :
  forall i found, ~ In c s -> rfind_from s c i found = found.
Proof.
  induction s as [|d s IH]; intros i found Hin; cbn [rfind_from].
  - reflexivity.
  - destruct (Ascii.eqb_spec d c) as [->|Hne].
    + exfalso. apply Hin. left. reflexivity.
    + apply IH. intros H. apply Hin. right. assumption.
Qed.

Lemma rfind_from_last (c : ascii) (p d : list ascii) :
  forall i found, ~ In c d ->
    rfind_from (p ++ c :: d) c i found = i + Z.of_nat (length p).
Proof.
  induction p as [|x p IH]; intros i found Hin.
  - cbn [app rfind_from length]. rewrite Ascii.eqb_refl.
    rewrite rfind_from_absent by assumption. cbn. lia.
  - cbn [app rfind_from length]. rewrite IH by assumption. lia.
Qed.

Lemma last_occurrence (c : ascii) (s : list ascii) :
  In c s -> exists p d, s = p ++ c :: d /\ ~ In c d.
Proof.
  induction s as [|x s IH]; intros Hin; [destruct Hin|].
  destruct (in_dec ascii_dec c s) as [Hs | Hs].
  - destruct (IH Hs) as [p [d [-> Hd]]].
    exists (x :: p), d. split; [reflexivity|assumption].
  - destruct Hin as [-> | Hin]; [|contradiction].
    exists [], s. split; [reflexivity|assumption].
Qed.

Lemma rfind_absent (c : ascii) (s : list ascii) :
  ~ In c s -> rfind s c = -1.
Proof. apply rfind_from_absent. Qed.

Lemma rfind_last (c : ascii) (p d : list ascii) :
  ~ In c d -> rfind (p ++ c :: d) c = Z.of_nat (length p).
Proof. intros H. unfold rfind. rewrite rfind_from_last by assumption. lia. Qed.

Lemma mem_in (c : ascii) (s : list ascii) : mem c s = true <-> In c s.
Proof.
  unfold mem. rewrite existsb_exists. split.
  - intros [x [Hx E]]. apply Ascii.eqb_eq in E. subst. assumption.
  - intros H. exists c. split; [assumption|apply Ascii.eqb_refl].
Qed.

Lemma find_range (c : ascii) (s : list ascii) :
  In c s -> 0 <= find s c < Z.of_nat (length s).
Proof.
  induction s as [|d s IH]; intros Hin; [destruct Hin|].
  cbn [find length]. destruct (Ascii.eqb_spec d c) as [->|Hne]; [lia|].
  destruct Hin as [E | Hin]; [contradiction|].
  specialize (IH Hin). lia.
Qed.

(** ** Splitting an address at its last colon *)

Lemma decode_no_colon (s : list ascii) :
  (10 <= length s)%nat -> ~ In colon (lower s) ->
  hoosat_bech32_decode s = Raise InvalidColonIndex.
Proof.
  intros Hlen Hin. unfold hoosat_bech32_decode.
  destruct (Nat.ltb_spec (length s) (CHECKSUM_LENGTH + 2)) as [H | _].
  { unfold CHECKSUM_LENGTH in H. lia. }
  cbv zeta. fold colon. rewrite (rfind_absent colon _ Hin). reflexivity.
Qed.

Lemma decode_split (s p d : list ascii) :
  (10 <= length s)%nat -> lower s = p ++ colon :: d -> ~ In colon d ->
  hoosat_bech32_decode s =
  if (length p <? 1)%nat || (length d <? 8)%nat
  then Raise InvalidColonIndex
  else decode_data p d.
Proof.
  intros Hlen Hs Hd. unfold hoosat_bech32_decode.
  destruct (Nat.ltb_spec (length s) (CHECKSUM_LENGTH + 2)) as [H | _].
  { unfold CHECKSUM_LENGTH in H. lia. }
  cbv zeta. fold colon. rewrite Hs. rewrite (rfind_last colon p d Hd).
  rewrite length_app. cbn [length]. unfold CHECKSUM_LENGTH.
  replace ((Z.of_nat (length p) <? 1) ||
           (Z.of_nat (length p) + Z.of_nat 8 + 1 >?
            Z.of_nat (length p + S (length d))))
    with ((length p <? 1)%nat || (length d <? 8)%nat).
  2:{ f_equal.
      - destruct (Nat.ltb_spec (length p) 1), (Z.ltb_spec (Z.of_nat (length p)) 1);
          try reflexivity; lia.
      - rewrite Z.gtb_ltb.
        destruct (Nat.ltb_spec (length d) 8),
          (Z.ltb_spec (Z.of_nat (length p + S (length d)))
                      (Z.of_nat (length p) + Z.of_nat 8 + 1));
          try reflexivity; lia. }
  destruct ((length p <? 1)%nat || (length d <? 8)%nat); [reflexivity|].
  rewrite Nat2Z.id.
  replace (Z.to_nat (Z.of_nat (length p) + 1)) with (length p + 1)%nat by lia.
  rewrite firstn_app, Nat.sub_diag, firstn_all. cbn [firstn].
  rewrite app_nil_r.
  rewrite skipn_app, skipn_all2 by lia.
  replace (length p + 1 - length p)%nat with 1%nat by lia.
  reflexivity.
Qed.

(** ** The alphabet *)

Lemma charset_symbol (x : Z) :
  fits 5 x ->
  exists c, index CHARSET x = Ok c /\ in_charset c /\ lower_char c = c /\
            c <> colon /\ find CHARSET c = x.
Proof.
  intros [H0 H1]. change (2 ^ 5) with 32 in H1.
  assert (E : x = Z.of_nat (Z.to_nat x)) by lia.
  rewrite E. clear E.
  assert (Hn : (Z.to_nat x < 32)%nat) by lia.
  generalize dependent (Z.to_nat x). clear x H0 H1. intros n Hn.
  do 32 (destruct n as [|n];
         [eexists; split; [reflexivity|];
          repeat split; try reflexivity; discriminate|]).
  lia.
Qed.

Lemma encode_to_base32_spec (data : list Z) :
  Forall (fits 5) data ->
  exists cs, encode_to_base32 data = Ok cs /\
             Forall in_charset cs /\ lower cs = cs /\ ~ In colon cs /\
             map (find CHARSET) cs = data /\ length cs = length data.
Proof.
  induction 1 as [|x data Hx _ IH].
  - exists []. repeat split; try reflexivity; try constructor. intros [].
  - destruct (charset_symbol x Hx) as [c [Hc [Hin [Hlow [Hcol Hfind]]]]].
    destruct IH as [cs [Hcs [Hall [Hl [Hnc [Hmap Hlen]]]]]].
    exists (c :: cs). cbn [encode_to_base32]. rewrite Hc. cbn [bind].
    rewrite Hcs. cbn [bind]. repeat split.
    + constructor; assumption.
    + cbn [lower map]. rewrite Hlow. f_equal. exact Hl.
    + intros [E | E]; [apply Hcol; exact E|contradiction].
    + cbn [map]. rewrite Hfind, Hmap. reflexivity.
    + cbn [length]. rewrite Hlen. reflexivity.
Qed.

Lemma decode_chars_ok (s : list ascii) :
  Forall in_charset s ->
  forall acc, decode_chars s acc = Ok (acc ++ map (find CHARSET) s).
Proof.
  induction 1 as [|c s Hc _ IH]; intros acc; cbn [decode_chars map].
  - rewrite app_nil_r. reflexivity.
  - unfold in_charset in Hc. rewrite Hc. cbn [negb].
    rewrite IH, <- app_assoc. reflexivity.
Qed.

Lemma decode_chars_bad (d1 d2 : list ascii) (c : ascii) :
  Forall in_charset d1 -> ~ in_charset c ->
  forall acc, decode_chars (d1 ++ c :: d2) acc = Raise (InvalidCharacter c).
Proof.
  intros H Hc. induction H as [|x d1 Hx _ IH]; intros acc;
    cbn [app decode_chars].
  - unfold in_charset in Hc. destruct (mem c CHARSET); [congruence|].
    reflexivity.
  - unfold in_charset in Hx. rewrite Hx. cbn [negb]. apply IH.
Qed.

(** Either every character is in the alphabet, or there is a first one
    that is not. *)
Lemma charset_split (s : list ascii) :
  Forall in_charset s \/
  exists d1 c d2, s = d1 ++ c :: d2 /\ Forall in_charset d1 /\ ~ in_charset c.
Proof.
  induction s as [|x s IH]; [left; constructor|].
  destruct (mem x CHARSET) eqn:Hx.
  - destruct IH as [IH | [d1 [c [d2 [-> [H1 H2]]]]]].
    + left. constructor; assumption.
    + right. exists (x :: d1), c, d2. repeat split; try assumption.
      constructor; assumption.
  - right. exists [], x, s. repeat split; [constructor|].
    unfold in_charset. congruence.
Qed.

Lemma find_charset_byte (s : list ascii) :
  Forall in_charset s ->
  Forall (fun x => 0 <= x < 256) (map (find CHARSET) s).
Proof.
  intros H. apply Forall_forall. intros x Hx. apply in_map_iff in Hx.
  destruct Hx as [c [<- Hc]]. rewrite Forall_forall in H.
  specialize (H c Hc). apply mem_in in H.
  pose proof (find_range c CHARSET H) as Hr.
  change (Z.of_nat (length CHARSET)) with 32 in Hr. lia.
Qed.

Lemma decode_from_base32_ok (s : list ascii) :
  lower s = s -> Forall in_charset s ->
  decode_from_base32 s = Ok (PyBytes (map (find CHARSET) s)).
Proof.
  intros Hl Hs. unfold decode_from_base32. rewrite Hl.
  rewrite (decode_chars_ok s Hs []). cbn [bind app].
  apply bytes_ok. apply find_charset_byte. assumption.
Qed.

Lemma decode_from_base32_bad (d1 d2 : list ascii) (c : ascii) :
  lower (d1 ++ c :: d2) = d1 ++ c :: d2 ->
  Forall in_charset d1 -> ~ in_charset c ->
  decode_from_base32 (d1 ++ c :: d2) = Raise (InvalidCharacter c).
Proof.
  intros Hl H1 Hc. unfold decode_from_base32. rewrite Hl.
  rewrite (decode_chars_bad d1 d2 c H1 Hc []). reflexivity.
Qed.

(** ** Decoding what the encoder assembles *)

Lemma drop_last_app {A} (xs ys : list A) (n : nat) :
  length ys = n -> drop_last n (xs ++ ys) = xs.
Proof.
  intros H. unfold drop_last. rewrite length_app, H.
  replace (length xs + n - n)%nat with (length xs) by lia.
  rewrite firstn_app, Nat.sub_diag, firstn_all. cbn [firstn].
  apply app_nil_r.
Qed.

Lemma take_last_app {A} (xs ys : list A) (n : nat) :
  length ys = n -> take_last n (xs ++ ys) = ys.
Proof.
  intros H. unfold take_last. rewrite length_app, H.
  replace (length xs + n - n)%nat with (length xs) by lia.
  rewrite skipn_app, Nat.sub_diag, skipn_all. reflexivity.
Qed.

Lemma verify_checksum_appended (prefix : list ascii) (symbols : list Z) :
  verify_checksum prefix
    (symbols ++ checksum_symbols (checksum_polymod prefix symbols)) = true.
Proof.
  unfold verify_checksum. rewrite verify_checksum_eq.
  rewrite drop_last_app, take_last_app by apply checksum_symbols_length.
  apply list_eqb_eq. reflexivity.
Qed.

Lemma fits8_byte (xs : list Z) :
  Forall is_byte xs <-> Forall (fits 8) xs.
Proof. split; apply Forall_impl; intros x; exact (fun H => H). Qed.

Lemma address_text_decodes (prefix : list ascii) (payload : list Z) :
  prefix <> [] -> lower prefix = prefix -> Forall is_byte payload ->
  exists data_string,
    address_text prefix payload = Ok (prefix ++ colon :: data_string) /\
    hoosat_bech32_decode (prefix ++ colon :: data_string) =
      Ok (prefix, payload, 1).
Proof.
  intros Hne Hlow Hpay.
  assert (Hdata : Forall (fits 8) (1 :: payload)).
  { constructor; [unfold fits; lia|]. apply fits8_byte. assumption. }
  destruct (convert_bits_padded_spec (1 :: payload) 8 5
              ltac:(lia) ltac:(lia) Hdata) as [Hfit _].
  cbv zeta in Hfit.
  set (converted := convert_bits (1 :: payload) 8 5 true) in *.
  set (checksum := checksum_symbols (checksum_polymod prefix converted)).
  assert (Hall : Forall (fits 5) (converted ++ checksum)).
  { apply Forall_app. split; [assumption|apply checksum_symbols_fit]. }
  destruct (encode_to_base32_spec _ Hall)
    as [cs [Hcs [Hin [Hl [Hnc [Hmap Hlen]]]]]].
  exists cs. split.
  - unfold address_text. cbn [app]. fold converted.
    rewrite calculate_checksum_ok. cbn [bind items]. fold checksum.
    rewrite Hcs. reflexivity.
  - assert (Hcslen : (8 <= length cs)%nat).
    { rewrite Hlen, length_app. subst checksum.
      rewrite checksum_symbols_length. lia. }
    assert (Hplen : (1 <= length prefix)%nat).
    { destruct prefix; [congruence|cbn; lia]. }
    rewrite (decode_split _ prefix cs).
    + replace ((length prefix <? 1)%nat || (length cs <? 8)%nat) with false.
      2:{ symmetry. apply orb_false_intro; apply Nat.ltb_ge; assumption. }
      unfold decode_data. rewrite (decode_from_base32_ok cs Hl Hin).
      cbn [bind items]. rewrite Hmap. subst checksum.
      rewrite verify_checksum_appended. cbn [negb].
      rewrite drop_last_app by apply checksum_symbols_length.
      subst converted. rewrite (convert_bits_roundtrip _ Hdata).
      cbn [skipn]. change (index (1 :: payload) 0) with (Ok (A:=Z) 1).
      cbn [bind]. rewrite (bytes_ok payload Hpay). reflexivity.
    + rewrite length_app. cbn [length]. lia.
    + unfold lower. rewrite map_app. cbn [map]. fold (lower prefix).
      fold (lower cs). rewrite Hlow, Hl. reflexivity.
    + exact Hnc.
Qed.

Lemma network_prefix_cases (p : list ascii) :
  network_prefix p -> p = text "hoosat" \/ p = text "hoosattest".
Proof.
  unfold network_prefix. cbn. intros [H | [H | []]]; subst; auto.
Qed.

(** C1 (amended).  For every prefix of the network set and every payload of
    20 bytes, the address text for them decodes to the prefix, the payload
    and the version 1: the version byte is the constant 0x01 that the
    encoder prepends, not an argument. *)
Theorem decode_inverts_address_text (prefix : list ascii) (payload : list Z) :
  network_prefix prefix -> length payload = 20%nat ->
  Forall is_byte payload ->
  exists address,
    address_text prefix payload = Ok address /\
    hoosat_bech32_decode address = Ok (prefix, payload, 1).
Proof.
  intros Hp _ Hpay.
  destruct (address_text_decodes prefix payload) as [cs [H1 H2]].
  - destruct (network_prefix_cases prefix Hp) as [-> | ->]; discriminate.
  - destruct (network_prefix_cases prefix Hp) as [-> | ->]; reflexivity.
  - assumption.
  - eexists. split; eassumption.
Qed.

Lemma decode_inverts_address_text_witness :
  exists address,
    address_text (text "hoosat") (repeat 7 20) = Ok address /\
    hoosat_bech32_decode address = Ok (text "hoosat", repeat 7 20, 1).
Proof.
  apply decode_inverts_address_text.
  - left. reflexivity.
  - reflexivity.
  - apply Forall_forall. intros x Hx. apply repeat_spec in Hx. subst.
    unfold is_byte. lia.
Defined.

(** C1, as stated, fails: encoding then decoding the main-network prefix
    with twenty zero bytes does not give back version 0, and the text
    assembled for them decodes to version 1. *)
Lemma roundtrip_version_counterexample :
  encode_then_decode (text "hoosat") (repeat 0 20) <>
    Ok (text "hoosat", repeat 0 20, 0) /\
  exists address,
    address_text (text "hoosat") (repeat 0 20) = Ok address /\
    hoosat_bech32_decode address = Ok (text "hoosat", repeat 0 20, 1).
Proof.
  split.
  - vm_compute. discriminate.
  - exists (text "hoosat:qyqqqqqqqqqqqqqqqqqqqqqqqqqqqqqqqq6ju4p888").
    split; vm_compute; reflexivity.
Qed.

(** C5.  [hoosat_bech32_encode] raises [TypeError] on every prefix and
    payload: the list of regrouped symbols and the [bytes] of the checksum
    cannot be added. *)
Theorem encode_raises_type_error (prefix : list ascii) (payload : list Z) :
  hoosat_bech32_encode prefix payload = Raise TypeError.
Proof.
  unfold hoosat_bech32_encode. cbn [add bind items].
  rewrite calculate_checksum_ok. reflexivity.
Qed.

(** C10.  The text "hoosat:36kpp9ks" passes the length, separator,
    character and checksum checks of [hoosat_bech32_decode], regroups to
    the empty sequence, and the read of [converted[0]] raises
    [IndexError]. *)
Theorem decode_empty_payload_index_error :
  exists s data_string symbols,
    s = text "hoosat" ++ colon :: data_string /\
    length data_string = 8%nat /\
    (length s <? CHECKSUM_LENGTH + 2)%nat = false /\
    rfind (lower s) colon = 6 /\
    decode_from_base32 data_string = Ok (PyBytes symbols) /\
    verify_checksum (text "hoosat") symbols = true /\
    convert_bits (drop_last CHECKSUM_LENGTH symbols) 5 8 false = [] /\
    index (convert_bits (drop_last CHECKSUM_LENGTH symbols) 5 8 false) 0 =
      Raise IndexError /\
    hoosat_bech32_decode s = Raise IndexError.
Proof.
  exists (text "hoosat:36kpp9ks"), (text "36kpp9ks"),
    [17; 26; 22; 1; 1; 5; 22; 16].
  repeat split; vm_compute; reflexivity.
Qed.

(** ** Regrouping without padding *)

(** C3 (amended).  A call of [convert_bits] with [pad] false, positive
    widths and symbols that fit [from_bits] returns normally whatever the
    leftover bits are: the result is the list of the complete
    [to_bits]-wide symbols, [total / to_bits] of them, which spell the
    input without its last [total mod to_bits] bits; those leftover bits of
    [next_byte] are dropped and never examined. *)
Theorem unpadded_regroup_drops_leftover (data : list Z)
    (from_bits to_bits : Z) :
  0 < from_bits -> 0 < to_bits -> Forall (fits from_bits) data ->
  let st := convert_loop data from_bits to_bits in
  let total := Z.of_nat (length data) * from_bits in
  convert_bits data from_bits to_bits false = regrouped st /\
  filled_bits st = total mod to_bits /\
  Z.of_nat (length (regrouped st)) = total / to_bits /\
  Forall (fits to_bits) (regrouped st) /\
  digits_value to_bits (regrouped st) =
    Z.shiftr (digits_value from_bits data) (total mod to_bits).
Proof.
  intros Hfrom Hto Hdata st total.
  destruct (convert_bits_unpadded_spec data from_bits to_bits Hfrom Hto Hdata)
    as [H1 [H2 H3]].
  destruct (convert_loop_inv from_bits to_bits data Hfrom Hto Hdata)
    as [Hfb [_ [_ [_ Hlen]]]].
  fold st in Hfb, Hlen.
  assert (E : convert_bits data from_bits to_bits false = regrouped st)
    by reflexivity.
  rewrite E in H1, H2, H3.
  repeat split; try assumption.
  apply Z.mod_unique with (q := Z.of_nat (length (regrouped st))).
  - left. exact Hfb.
  - subst total. lia.
Qed.

Lemma unpadded_regroup_drops_leftover_witness :
  convert_bits [31] 5 8 false = regrouped (convert_loop [31] 5 8) /\
  filled_bits (convert_loop [31] 5 8) = (Z.of_nat (length [31]) * 5) mod 8.
Proof.
  assert (H : Forall (fits 5) [31]).
  { constructor; [unfold fits; simpl; lia|constructor]. }
  destruct (unpadded_regroup_drops_leftover [31] 5 8
              ltac:(lia) ltac:(lia) H) as [H1 [H2 _]].
  split; [exact H1|exact H2].
Defined.

(** C3, as stated, fails: the single symbol 31 leaves five leftover bits,
    all ones, and the call returns the empty list; and an address whose
    last data symbol carries two leftover bits 11 decodes, to the same
    result as the address whose leftover bits are zero. *)
Lemma nonzero_leftover_counterexample :
  (filled_bits (convert_loop [31] 5 8) = 5 /\
   Z.land (next_byte (convert_loop [31] 5 8)) (Z.ones 5) = 31 /\
   convert_bits [31] 5 8 false = []) /\
  (exists symbols,
     decode_from_base32
       (text "qyqqqqqqqqqqqqqqqqqqqqqqqqqqqqqqqrxh7grzmy") =
       Ok (PyBytes symbols) /\
     filled_bits (convert_loop (drop_last 8 symbols) 5 8) = 2 /\
     Z.land (next_byte (convert_loop (drop_last 8 symbols) 5 8))
            (Z.ones 2) = 3) /\
  hoosat_bech32_decode
    (text "hoosat:qyqqqqqqqqqqqqqqqqqqqqqqqqqqqqqqqrxh7grzmy") =
    Ok (text "hoosat", repeat 0 20, 1) /\
  hoosat_bech32_decode
    (text "hoosat:qyqqqqqqqqqqqqqqqqqqqqqqqqqqqqqqqq6ju4p888") =
    Ok (text "hoosat", repeat 0 20, 1).
Proof.
  split; [repeat split; vm_compute; reflexivity|].
  split.
  - exists ([0; 4] ++ repeat 0 31 ++ [3; 6; 23; 30; 8; 3; 2; 27; 4]).
    repeat split; vm_compute; reflexivity.
  - split; vm_compute; reflexivity.
Qed.

(** ** The checks of the decoder, one by one *)

Lemma map_fixed {A} (f : A -> A) (l : list A) :
  Forall (fun x => f x = x) l -> map f l = l.
Proof.
  induction 1 as [|x l Hx _ IH]; [reflexivity|].
  cbn [map]. rewrite Hx, IH. reflexivity.
Qed.

Lemma lower_parts (s p d : list ascii) (c : ascii) :
  lower s = p ++ c :: d -> lower p = p /\ lower d = d.
Proof.
  intros H.
  assert (Hf : Forall (fun x => lower_char x = x) (lower s)).
  { apply Forall_forall. intros x Hx. unfold lower in Hx.
    apply in_map_iff in Hx. destruct Hx as [y [<- _]].
    apply lower_char_idem. }
  rewrite H in Hf. apply Forall_app in Hf. destruct Hf as [Hp Hd].
  inversion Hd as [|? ? _ Hd']; subst.
  split; apply map_fixed; assumption.
Qed.

Lemma in_charset_not_colon (d : list ascii) :
  Forall in_charset d -> ~ In colon d.
Proof.
  intros H Hin. rewrite Forall_forall in H. specialize (H colon Hin).
  vm_compute in H. discriminate.
Qed.

Lemma decode_lower_eq (s t : list ascii) :
  lower t = lower s -> hoosat_bech32_decode t = hoosat_bech32_decode s.
Proof.
  intros H. unfold hoosat_bech32_decode.
  assert (Hlen : length t = length s).
  { rewrite <- (lower_length t), <- (lower_length s), H. reflexivity. }
  rewrite H, Hlen. reflexivity.
Qed.

Lemma converted_bytes (symbols : list Z) :
  Forall (fits 5) symbols ->
  Forall is_byte (convert_bits symbols 5 8 false).
Proof.
  intros H.
  destruct (convert_bits_unpadded_spec symbols 5 8 ltac:(lia) ltac:(lia) H)
    as [_ [Hfit _]].
  apply fits8_byte. exact Hfit.
Qed.

Lemma find_charset_fit (d : list ascii) :
  Forall in_charset d -> Forall (fits 5) (map (find CHARSET) d).
Proof.
  intros H. apply Forall_forall. intros x Hx. apply in_map_iff in Hx.
  destruct Hx as [c [<- Hc]]. rewrite Forall_forall in H.
  specialize (H c Hc). apply mem_in in H.
  pose proof (find_range c CHARSET H) as Hr.
  change (Z.of_nat (length CHARSET)) with 32 in Hr.
  unfold fits. change (2 ^ 5) with 32. lia.
Qed.

Lemma Forall_firstn {A} (P : A -> Prop) (n : nat) (l : list A) :
  Forall P l -> Forall P (firstn n l).
Proof.
  intros H. apply Forall_forall. intros x Hx. rewrite Forall_forall in H.
  apply H. rewrite <- (firstn_skipn n l). apply in_or_app. left. exact Hx.
Qed.

Lemma Forall_skipn {A} (P : A -> Prop) (n : nat) (l : list A) :
  Forall P l -> Forall P (skipn n l).
Proof.
  intros H. apply Forall_forall. intros x Hx. rewrite Forall_forall in H.
  apply H. rewrite <- (firstn_skipn n l). apply in_or_app. right. exact Hx.
Qed.

(** What [decode_data] returns on lower-case data, check after check. *)
Lemma decode_data_cases (p d : list ascii) :
  lower d = d ->
  (exists d1 c d2, d = d1 ++ c :: d2 /\ Forall in_charset d1 /\
     ~ in_charset c /\ decode_data p d = Raise (InvalidCharacter c)) \/
  (Forall in_charset d /\
   verify_checksum p (map (find CHARSET) d) = false /\
   decode_data p d = Raise ChecksumFailed) \/
  (Forall in_charset d /\
   verify_checksum p (map (find CHARSET) d) = true /\
   (decode_data p d = Raise IndexError \/
    exists payload version, decode_data p d = Ok (p, payload, version))).
Proof.
  intros Hl. destruct (charset_split d) as [Hall | [d1 [c [d2 [E [H1 H2]]]]]].
  - right. unfold decode_data. rewrite (decode_from_base32_ok d Hl Hall).
    cbn [bind items].
    destruct (verify_checksum p (map (find CHARSET) d)) eqn:Hv; cbn [negb].
    + right. repeat split; try assumption.
      set (converted := convert_bits _ 5 8 false).
      assert (Hb : Forall is_byte converted).
      { apply converted_bytes. unfold drop_last. apply Forall_firstn.
        apply find_charset_fit. assumption. }
      destruct converted as [|version rest] eqn:Ec.
      * left. reflexivity.
      * right. exists rest, version.
        change (index (version :: rest) 0) with (Ok version).
        cbn [bind skipn]. inversion Hb; subst.
        rewrite (bytes_ok rest) by assumption. reflexivity.
    + left. repeat split; assumption.
  - left. exists d1, c, d2. repeat split; try assumption.
    unfold decode_data. rewrite E in Hl |- *.
    rewrite (decode_from_base32_bad d1 d2 c Hl H1 H2). reflexivity.
Qed.

(** What [hoosat_bech32_decode] does up to the split at the colon. *)
Lemma decode_cases (s : list ascii) :
  ((length s < 10)%nat /\
   hoosat_bech32_decode s = Raise (InvalidLength (length s))) \/
  ((10 <= length s)%nat /\ ~ In colon (lower s) /\
   hoosat_bech32_decode s = Raise InvalidColonIndex) \/
  ((10 <= length s)%nat /\
   exists p d, lower s = p ++ colon :: d /\ ~ In colon d /\
     lower p = p /\ lower d = d /\
     ((p = [] \/ (length d < 8)%nat) /\
      hoosat_bech32_decode s = Raise InvalidColonIndex \/
      p <> [] /\ (8 <= length d)%nat /\
      hoosat_bech32_decode s = decode_data p d)).
Proof.
  destruct (Nat.ltb_spec (length s) 10) as [Hlt | Hge].
  - left. split; [assumption|]. unfold hoosat_bech32_decode.
    destruct (Nat.ltb_spec (length s) (CHECKSUM_LENGTH + 2)) as [_ | H];
      [reflexivity|]. unfold CHECKSUM_LENGTH in H. lia.
  - right. destruct (in_dec ascii_dec colon (lower s)) as [Hin | Hnin].
    + right. split; [assumption|].
      destruct (last_occurrence colon (lower s) Hin) as [p [d [E Hd]]].
      destruct (lower_parts s p d colon E) as [Hp Hdl].
      exists p, d. repeat split; try assumption.
      rewrite (decode_split s p d Hge E Hd).
      destruct (Nat.ltb_spec (length p) 1) as [Hp1 | Hp1].
      * left. cbn [orb]. split; [|reflexivity]. left.
        destruct p; [reflexivity|cbn in Hp1; lia].
      * destruct (Nat.ltb_spec (length d) 8) as [Hd8 | Hd8]; cbn [orb].
        -- left. split; [right; assumption|reflexivity].
        -- right. repeat split; try assumption.
           intros ->. cbn in Hp1. lia.
    + left. repeat split; try assumption.
      apply decode_no_colon; assumption.
Qed.

Ltac classify s :=
  let Hlen := fresh "Hlen" in
  let Hres := fresh "Hres" in
  destruct (decode_cases s)
    as [[Hlen Hres]
       | [[Hlen [?Hnc Hres]]
         | [Hlen [?p [?d [?Es [?Hd [?Hlp [?Hld
             [[?Hbad Hres] | [?Hp [?Hd8 Hres]]]]]]]]]]]];
  [ | | |
    match goal with
    | Hl : lower ?d = ?d, Hr : _ = decode_data ?p ?d |- _ =>
        destruct (decode_data_cases p d Hl)
          as [[?d1 [?c0 [?d2 [?Ed [?Hd1 [?Hc0 ?Hdd]]]]]]
             | [[?Hall [?Hv ?Hdd]]
               | [?Hall [?Hv [?Hdd | [?pl [?ver ?Hdd]]]]]]];
        match goal with Hx : decode_data p d = _ |- _ =>
          rewrite Hx in Hr end
    end ].

Lemma decode_short (s : list ascii) :
  (length s < 10)%nat ->
  hoosat_bech32_decode s = Raise (InvalidLength (length s)).
Proof.
  intros H. unfold hoosat_bech32_decode.
  destruct (Nat.ltb_spec (length s) (CHECKSUM_LENGTH + 2)) as [_ | H'];
    [reflexivity|]. unfold CHECKSUM_LENGTH in H'. lia.
Qed.

Lemma decode_split_ok (s p d : list ascii) :
  (10 <= length s)%nat -> lower s = p ++ colon :: d -> ~ In colon d ->
  p <> [] -> (8 <= length d)%nat ->
  hoosat_bech32_decode s = decode_data p d.
Proof.
  intros Hlen Es Hd Hp Hd8. rewrite (decode_split s p d Hlen Es Hd).
  destruct (Nat.ltb_spec (length p) 1) as [H | _].
  { destruct p; [congruence|cbn in H; lia]. }
  destruct (Nat.ltb_spec (length d) 8) as [H | _]; [lia|]. reflexivity.
Qed.

(** C6 (amended).  [hoosat_bech32_decode] reports, in this order: the
    length error exactly when the text has fewer than 10 characters (so for
    "hoosat:"); the separator error exactly when, the length being enough,
    the lower-cased text has no colon, or its last colon is its first
    character, or fewer than 8 characters follow its last colon; the
    character error for [c] exactly when those checks pass and [c] is the
    first character after the last colon that is not in the alphabet; the
    checksum error exactly when those checks pass, every character after
    the last colon is in the alphabet, and [verify_checksum] is false on
    their symbols.  The text is lower-cased after the length is checked
    and before the colon is looked for: the result depends on the length
    of the text and on its lower-case form alone. *)
Theorem decode_error_conditions (s : list ascii) :
  (forall n, hoosat_bech32_decode s = Raise (InvalidLength n) <->
             (length s < 10)%nat /\ n = length s) /\
  hoosat_bech32_decode (text "hoosat:") = Raise (InvalidLength 7) /\
  (hoosat_bech32_decode s = Raise InvalidColonIndex <->
   (10 <= length s)%nat /\
   (~ In colon (lower s) \/
    exists p d, lower s = p ++ colon :: d /\ ~ In colon d /\
                (p = [] \/ (length d < 8)%nat))) /\
  (forall c, hoosat_bech32_decode s = Raise (InvalidCharacter c) <->
   (10 <= length s)%nat /\
   exists p d1 d2,
     lower s = p ++ colon :: d1 ++ c :: d2 /\
     ~ In colon (d1 ++ c :: d2) /\ p <> [] /\
     (8 <= length (d1 ++ c :: d2))%nat /\
     Forall in_charset d1 /\ ~ in_charset c) /\
  (hoosat_bech32_decode s = Raise ChecksumFailed <->
   (10 <= length s)%nat /\
   exists p d,
     lower s = p ++ colon :: d /\ p <> [] /\ (8 <= length d)%nat /\
     Forall in_charset d /\
     verify_checksum p (map (find CHARSET) d) = false) /\
  (forall t, length t = length s -> lower t = lower s ->
             hoosat_bech32_decode t = hoosat_bech32_decode s).
Proof.
  split; [|split; [|split; [|split; [|split]]]].
  - intros n. split.
    + intros H. classify s; rewrite Hres in H; try discriminate H.
      injection H as <-. split; [assumption|reflexivity].
    + intros [H ->]. apply decode_short. assumption.
  - reflexivity.
  - split.
    + intros H. classify s; rewrite Hres in H; try discriminate H.
      * split; [assumption|]. left. assumption.
      * split; [assumption|]. right. exists p, d. repeat split; assumption.
    + intros [Hlen [Hnc | [p [d [Es [Hd Hbad]]]]]].
      * apply decode_no_colon; assumption.
      * rewrite (decode_split s p d Hlen Es Hd).
        destruct Hbad as [-> | Hd8].
        -- reflexivity.
        -- destruct (Nat.ltb_spec (length d) 8) as [_ | H]; [|lia].
           rewrite orb_true_r. reflexivity.
  - intros c. split.
    + intros H. classify s; rewrite Hres in H; try discriminate H.
      injection H as <-. split; [assumption|].
      subst d. exists p, d1, d2. repeat split; assumption.
    + intros [Hlen [p [d1 [d2 [Es [Hd [Hp [Hd8 [Hd1 Hc]]]]]]]]].
      rewrite (decode_split_ok s p _ Hlen Es Hd Hp Hd8).
      destruct (lower_parts s p _ colon Es) as [_ Hld].
      unfold decode_data.
      rewrite (decode_from_base32_bad d1 d2 c Hld Hd1 Hc). reflexivity.
  - split.
    + intros H. classify s; rewrite Hres in H; try discriminate H.
      split; [assumption|]. exists p, d. repeat split; assumption.
    + intros [Hlen [p [d [Es [Hp [Hd8 [Hall Hv]]]]]]].
      rewrite (decode_split_ok s p d Hlen Es
                 (in_charset_not_colon d Hall) Hp Hd8).
      destruct (lower_parts s p d colon Es) as [_ Hld].
      unfold decode_data. rewrite (decode_from_base32_ok d Hld Hall).
      cbn [bind items]. rewrite Hv. reflexivity.
  - intros t Hlen Hlow. unfold hoosat_bech32_decode.
    rewrite Hlen, Hlow. reflexivity.
Qed.

(** C6, as stated, fails: ":qqqqqqqqq" has a colon, and 9 characters
    follow its last colon, yet the separator error is raised, the colon
    being the first character. *)
Lemma empty_prefix_counterexample :
  In colon (lower (text ":qqqqqqqqq")) /\
  (exists d, lower (text ":qqqqqqqqq") = [] ++ colon :: d /\
             ~ In colon d /\ length d = 9%nat) /\
  hoosat_bech32_decode (text ":qqqqqqqqq") = Raise InvalidColonIndex.
Proof.
  split; [left; reflexivity|]. split; [|reflexivity].
  exists (text "qqqqqqqqq"). split; [reflexivity|]. split; [|reflexivity].
  apply in_charset_not_colon. repeat constructor.
Qed.

(** ** Case *)

Lemma upper_char_defined (c : ascii) :
  mem (lower_char c) address_chars = true -> upper_char c <> None.
Proof.
  destruct c as [[] [] [] [] [] [] [] []]; vm_compute; intros H;
    discriminate.
Qed.

Lemma upper_defined (s : list ascii) :
  Forall (fun c => upper_char c <> None) s -> exists u, upper s = Some u.
Proof.
  induction 1 as [|c s Hc _ [u Hu]].
  - exists []. reflexivity.
  - cbn [upper]. destruct (upper_char c) as [uc|]; [|congruence].
    rewrite Hu. exists (uc :: u). reflexivity.
Qed.

Lemma valid_address_chars (s prefix : list ascii) (payload : list Z)
    (version : Z) :
  hoosat_bech32_decode s = Ok (prefix, payload, version) ->
  network_prefix prefix ->
  Forall (fun c => mem (lower_char c) address_chars = true) s.
Proof.
  intros H Hnet. classify s; rewrite Hres in H; try discriminate H.
  injection H as -> _ _.
  apply Forall_forall. intros c Hc. apply mem_in.
  assert (Hin : In (lower_char c) (lower s)) by (apply in_map; exact Hc).
  rewrite Es in Hin. apply in_app_or in Hin.
  destruct Hin as [Hin | [<- | Hin]].
  - destruct (network_prefix_cases prefix Hnet) as [-> | ->];
      apply mem_in; revert Hin; generalize (lower_char c); intros x Hx;
      cbn in Hx; repeat (destruct Hx as [<- | Hx]; [reflexivity|]);
      destruct Hx.
  - apply mem_in. reflexivity.
  - rewrite Forall_forall in Hall. specialize (Hall _ Hin).
    apply mem_in in Hall. unfold address_chars. apply in_or_app.
    right. exact Hall.
Qed.

(** C8.  A text that decodes to a prefix of the network set has an upper
    case form, which decodes to the same result; and every text with the
    same lower-case form as the address, its mixed-case variants among
    them, decodes to the same result. *)
Theorem decode_case_invariant (s prefix : list ascii) (payload : list Z)
    (version : Z) :
  hoosat_bech32_decode s = Ok (prefix, payload, version) ->
  network_prefix prefix ->
  (exists u, upper s = Some u /\
             hoosat_bech32_decode u = Ok (prefix, payload, version)) /\
  (forall t, lower t = lower s ->
             hoosat_bech32_decode t = Ok (prefix, payload, version)) /\
  hoosat_bech32_decode (lower s) = Ok (prefix, payload, version).
Proof.
  intros H Hnet.
  assert (Hsame : forall t, lower t = lower s ->
            hoosat_bech32_decode t = Ok (prefix, payload, version)).
  { intros t Ht. rewrite (decode_lower_eq s t Ht). exact H. }
  split; [|split].
  - destruct (upper_defined s) as [u Hu].
    + eapply Forall_impl; [|exact (valid_address_chars _ _ _ _ H Hnet)].
      intros c. apply upper_char_defined.
    + exists u. split; [exact Hu|]. apply Hsame.
      apply upper_lower. exact Hu.
  - exact Hsame.
  - apply Hsame. apply lower_idem.
Qed.

Lemma decode_case_invariant_witness :
  exists u,
    upper (text "hoosat:qyqqqqqqqqqqqqqqqqqqqqqqqqqqqqqqqq6ju4p888") =
      Some u /\
    hoosat_bech32_decode u = Ok (text "hoosat", repeat 0 20, 1).
Proof.
  refine (proj1 (decode_case_invariant
    (text "hoosat:qyqqqqqqqqqqqqqqqqqqqqqqqqqqqqqqqq6ju4p888")
    (text "hoosat") (repeat 0 20) 1 _ _)).
  - vm_compute. reflexivity.
  - left. reflexivity.
Defined.

(** ** WIF *)

Section WIFProperties.
Context {L : WifLibrary} {HL : WifLibraryLaws L}.

Lemma wif_checksum_length (x : list Z) :
  length (firstn 4 (sha256 (sha256 x))) = 4%nat.
Proof. rewrite length_firstn, sha256_length. reflexivity. Qed.

Lemma wif_roundtrip_payload (extended : list Z) :
  Forall is_byte extended ->
  wif_to_private_key
    (b58encode (extended ++ firstn 4 (sha256 (sha256 extended)))) =
  if (length extended =? 33)%nat then Ok (skipn 1 extended)
  else if (length extended =? 34)%nat
       then Ok (drop_last 1 (skipn 1 extended))
       else Raise InvalidWifLength.
Proof.
  intros Hb. unfold wif_to_private_key. rewrite b58_inverse.
  - cbn [bind].
    rewrite drop_last_app, take_last_app by apply wif_checksum_length.
    replace (list_eqb _ _) with true
      by (symmetry; apply list_eqb_eq; reflexivity).
    reflexivity.
  - apply Forall_app. split; [assumption|].
    apply Forall_firstn. apply sha256_bytes.
Qed.

(** C4 (amended).  For every secret of 32 bytes, both networks and both
    compression flags, [wif_to_private_key] applied to the text of
    [private_key_to_wif] returns the secret; it returns the secret alone,
    neither the compression flag nor the network. *)
Theorem wif_decode_returns_secret (net : network) (secret : list Z)
    (compressed : bool) :
  length secret = 32%nat -> Forall is_byte secret ->
  wif_to_private_key (private_key_to_wif net secret compressed) =
    Ok secret.
Proof.
  intros Hlen Hb. unfold private_key_to_wif.
  set (version_byte := match net with
                       | mainnet => [0x80] | testnet => [0xef] end).
  assert (Hv : exists v, version_byte = [v] /\ is_byte v).
  { destruct net; eexists; (split; [reflexivity|unfold is_byte; lia]). }
  destruct Hv as [v [-> Hv]].
  destruct compressed; rewrite wif_roundtrip_payload.
  - rewrite length_app, length_app. cbn [length app]. rewrite Hlen.
    cbn [Nat.eqb Nat.add]. cbn [app skipn].
    apply f_equal. apply drop_last_app. reflexivity.
  - apply Forall_app. split.
    + constructor; assumption.
    + constructor; [unfold is_byte; lia|constructor].
  - rewrite length_app. cbn [length app]. rewrite Hlen. reflexivity.
  - constructor; assumption.
Qed.
End WIFProperties.

Lemma ord_chr (x : Z) : is_byte x -> ord (chr x) = x.
Proof.
  intros [H0 H1]. unfold ord, chr.
  rewrite N_ascii_embedding; lia.
Qed.

Lemma example_library_laws : WifLibraryLaws example_library.
Proof.
  constructor; cbn [sha256 b58encode b58decode example_library].
  - intros _. reflexivity.
  - intros _. apply Forall_forall. intros x Hx. apply repeat_spec in Hx.
    subst. unfold is_byte. lia.
  - intros x Hx. f_equal. rewrite map_map.
    induction Hx as [|y x Hy _ IH]; [reflexivity|].
    cbn [map]. rewrite ord_chr by assumption. f_equal. exact IH.
Qed.

Lemma wif_decode_returns_secret_witness :
  @wif_to_private_key example_library
    (@private_key_to_wif example_library mainnet (repeat 1 32) true) =
  Ok (repeat 1 32).
Proof.
  apply (@wif_decode_returns_secret example_library example_library_laws).
  - reflexivity.
  - apply Forall_forall. intros x Hx. apply repeat_spec in Hx. subst.
    unfold is_byte. lia.
Defined.

(** C4, as stated, fails: the text for the main network with the
    compression flag and the text for the test network without it decode
    to one and the same value, the secret, which therefore tells neither
    the flag nor the network. *)
Lemma wif_decode_counterexample :
  @private_key_to_wif example_library mainnet (repeat 1 32) true <>
    @private_key_to_wif example_library testnet (repeat 1 32) false /\
  @wif_to_private_key example_library
    (@private_key_to_wif example_library mainnet (repeat 1 32) true) =
    Ok (repeat 1 32) /\
  @wif_to_private_key example_library
    (@private_key_to_wif example_library testnet (repeat 1 32) false) =
    Ok (repeat 1 32).
Proof.
  split; [vm_compute; discriminate|].
  split; vm_compute; reflexivity.
Qed.

(** * Further properties of the codec *)

(** ** BitRegrouper *)

(** Regrouping bytes to 5-bit symbols with padding and back without
    padding gives the bytes back, for every byte sequence. *)
Theorem regroup_bytes_roundtrip (data : list Z) :
  Forall is_byte data ->
  convert_bits (convert_bits data 8 5 true) 5 8 false = data.
Proof.
  intros H. apply convert_bits_roundtrip. apply fits8_byte. exact H.
Qed.

Lemma regroup_bytes_roundtrip_witness :
  convert_bits (convert_bits [255; 0; 129] 8 5 true) 5 8 false =
  [255; 0; 129].
Proof.
  apply regroup_bytes_roundtrip.
  repeat constructor; unfold is_byte; lia.
Defined.

(** With padding, [convert_bits] on symbols that fit [from_bits] returns
    symbols that fit [to_bits], as many as cover all the input bits, and
    they spell the input followed by zero bits. *)
Theorem padded_regroup_appends_zero_bits (data : list Z)
    (from_bits to_bits : Z) :
  0 < from_bits -> 0 < to_bits -> Forall (fits from_bits) data ->
  let out := convert_bits data from_bits to_bits true in
  let total := Z.of_nat (length data) * from_bits in
  let pad_bits := Z.of_nat (length out) * to_bits - total in
  Forall (fits to_bits) out /\
  0 <= pad_bits < to_bits /\
  digits_value to_bits out = digits_value from_bits data * 2 ^ pad_bits.
Proof.
  intros Hfrom Hto Hdata out total pad_bits.
  destruct (convert_bits_padded_spec data from_bits to_bits Hfrom Hto Hdata)
    as [Hfit [p [Hp [Hlen Hval]]]].
  fold out in Hfit, Hlen, Hval.
  assert (E : pad_bits = p) by (subst pad_bits total; lia).
  rewrite E. repeat split; try assumption; lia.
Qed.

Lemma padded_regroup_appends_zero_bits_witness :
  digits_value 5 (convert_bits [255] 8 5 true) =
  digits_value 8 [255] *
  2 ^ (Z.of_nat (length (convert_bits [255] 8 5 true)) * 5 -
       Z.of_nat (length [255]) * 8).
Proof.
  assert (H : Forall (fits 8) [255]).
  { constructor; [unfold fits; simpl; lia|constructor]. }
  exact (proj2 (proj2 (padded_regroup_appends_zero_bits [255] 8 5
                         ltac:(lia) ltac:(lia) H))).
Defined.

Lemma drain_shape (to_bits : Z) :
  0 < to_bits ->
  forall (fuel : nat) (nb fb : Z) (out : list Z),
    0 <= fb -> (Z.to_nat fb <= fuel)%nat ->
    Forall (fits to_bits) out ->
    let r := drain fuel nb fb to_bits out in
    0 <= snd r < to_bits /\
    Forall (fits to_bits) (fst r) /\
    Z.of_nat (length (fst r)) * to_bits + snd r =
      Z.of_nat (length out) * to_bits + fb.
Proof.
  intros Hto. induction fuel as [|fuel IH]; intros nb fb out Hfb Hfuel Hout.
  - cbn. repeat split; try assumption; lia.
  - cbn [drain]. rewrite Z.geb_leb.
    destruct (Z.leb_spec to_bits fb) as [Hge | Hlt].
    + set (d := Z.land _ _).
      specialize (IH nb (fb - to_bits) (out ++ [d])).
      cbv zeta in IH |- *.
      destruct IH as [H1 [H2 H3]].
      * lia.
      * lia.
      * apply Forall_app. split; [assumption|].
        constructor; [|constructor]. subst d. rewrite mask_ones.
        apply land_ones_range. lia.
      * repeat split; try assumption; try lia.
        rewrite H3, length_app. cbn [length].
        rewrite Nat2Z.inj_add. change (Z.of_nat 1) with 1. lia.
    + cbn. repeat split; try assumption; lia.
Qed.

Lemma convert_loop_shape (from_bits to_bits : Z) (data : list Z) :
  0 <= from_bits -> 0 < to_bits ->
  let st := convert_loop data from_bits to_bits in
  0 <= filled_bits st < to_bits /\
  Forall (fits to_bits) (regrouped st) /\
  Z.of_nat (length (regrouped st)) * to_bits + filled_bits st =
    Z.of_nat (length data) * from_bits.
Proof.
  intros Hfrom Hto. unfold convert_loop.
  assert (Hgen : forall rest (n : nat) st,
             0 <= filled_bits st < to_bits ->
             Forall (fits to_bits) (regrouped st) ->
             Z.of_nat (length (regrouped st)) * to_bits + filled_bits st =
               Z.of_nat n * from_bits ->
             let st' := fold_left (convert_value from_bits to_bits) rest st in
             0 <= filled_bits st' < to_bits /\
             Forall (fits to_bits) (regrouped st') /\
             Z.of_nat (length (regrouped st')) * to_bits + filled_bits st' =
               Z.of_nat (n + length rest) * from_bits).
  { induction rest as [|v rest IH]; intros n st H1 H2 H3; cbv zeta.
    - cbn [fold_left length]. rewrite Nat.add_0_r.
      split; [exact H1|split; [exact H2|exact H3]].
    - cbn [fold_left length]. cbv zeta in IH.
      replace (n + S (length rest))%nat with (S n + length rest)%nat by lia.
      pose proof (drain_shape to_bits Hto
                    (Z.to_nat (filled_bits st + from_bits))
                    (Z.lor (Z.shiftl (next_byte st) from_bits) v)
                    (filled_bits st + from_bits) (regrouped st)) as Hd.
      cbv zeta in Hd.
      apply IH; unfold convert_value;
        destruct (drain _ _ _ to_bits _) as [out fb];
        cbn [fst snd filled_bits regrouped] in *;
        destruct Hd as [D1 [D2 D3]]; try lia; try assumption. }
  apply (Hgen data 0%nat (mk_state [] 0 0)); cbn; try lia. constructor.
Qed.

(** Whatever the input values are, in range or not, [convert_bits] with a
    positive [to_bits] returns symbols that fit [to_bits], and their number
    depends on the number of input values alone: the bits divided by
    [to_bits], rounded up with padding and down without. *)
Theorem regroup_shape (data : list Z) (from_bits to_bits : Z) (pad : bool) :
  0 <= from_bits -> 0 < to_bits ->
  Forall (fits to_bits) (convert_bits data from_bits to_bits pad) /\
  Z.of_nat (length (convert_bits data from_bits to_bits pad)) =
    regroup_length (Z.of_nat (length data)) from_bits to_bits pad.
Proof.
  intros Hfrom Hto.
  destruct (convert_loop_shape from_bits to_bits data Hfrom Hto)
    as [Hfb [Hfit Hlen]].
  unfold convert_bits, regroup_length. cbv zeta.
  set (st := convert_loop data from_bits to_bits) in *.
  destruct pad; cbn [andb].
  - rewrite Z.gtb_ltb.
    destruct (Z.ltb_spec 0 (filled_bits st)) as [Hpos | Hzero].
    + split.
      * apply Forall_app. split; [assumption|].
        constructor; [|constructor]. rewrite mask_ones.
        apply land_ones_range. lia.
      * rewrite length_app. cbn [length]. rewrite Nat2Z.inj_add.
        change (Z.of_nat 1) with 1.
        apply Z.div_unique with (r := filled_bits st - 1); lia.
    + split; [assumption|].
      apply Z.div_unique with (r := to_bits - 1); lia.
  - split; [assumption|].
    apply Z.div_unique with (r := filled_bits st); lia.
Qed.

Lemma regroup_shape_witness :
  Z.of_nat (length (convert_bits [-7; 1000; 3] 8 5 true)) =
  regroup_length 3 8 5 true.
Proof.
  exact (proj2 (regroup_shape [-7; 1000; 3] 8 5 true
                  ltac:(lia) ltac:(lia))).
Defined.

(** ** The alphabet, both ways *)

Lemma find_nth (c : ascii) (s : list ascii) :
  In c s -> nth_error s (Z.to_nat (find s c)) = Some c.
Proof.
  induction s as [|d s IH]; intros Hin; [destruct Hin|].
  cbn [find]. destruct (Ascii.eqb_spec d c) as [->|Hne]; [reflexivity|].
  destruct Hin as [E | Hin]; [contradiction|].
  pose proof (find_range c s Hin) as Hr.
  replace (Z.to_nat (1 + find s c)) with (S (Z.to_nat (find s c))) by lia.
  cbn [nth_error]. apply IH. exact Hin.
Qed.

Lemma index_find (c : ascii) (s : list ascii) :
  In c s -> index s (find s c) = Ok c.
Proof.
  intros Hin. pose proof (find_range c s Hin) as Hr. unfold index.
  destruct (Z.ltb_spec (find s c) 0) as [H | _]; [lia|].
  destruct (Z.leb_spec 0 (find s c)) as [_ | H]; [|lia].
  destruct (Z.ltb_spec (find s c) (Z.of_nat (length s))) as [_ | H]; [|lia].
  cbn [andb]. rewrite (find_nth c s Hin). reflexivity.
Qed.

Lemma encode_find (cs : list ascii) :
  Forall in_charset cs ->
  encode_to_base32 (map (find CHARSET) cs) = Ok cs.
Proof.
  induction 1 as [|c cs Hc _ IH]; [reflexivity|].
  cbn [map encode_to_base32]. apply mem_in in Hc.
  rewrite (index_find c CHARSET Hc). cbn [bind]. rewrite IH. reflexivity.
Qed.

(** Encoding 5-bit symbols to text and decoding the text gives the symbols
    back. *)
Theorem base32_roundtrip (symbols : list Z) :
  Forall (fits 5) symbols ->
  exists cs, encode_to_base32 symbols = Ok cs /\
             decode_from_base32 cs = Ok (PyBytes symbols).
Proof.
  intros H.
  destruct (encode_to_base32_spec symbols H)
    as [cs [Hcs [Hin [Hl [_ [Hmap _]]]]]].
  exists cs. split; [exact Hcs|].
  rewrite (decode_from_base32_ok cs Hl Hin), Hmap. reflexivity.
Qed.

Lemma base32_roundtrip_witness :
  exists cs, encode_to_base32 [0; 31; 7] = Ok cs /\
             decode_from_base32 cs = Ok (PyBytes [0; 31; 7]).
Proof.
  apply base32_roundtrip.
  repeat constructor; unfold fits; simpl; lia.
Defined.

(** When [decode_from_base32] returns, it returns one symbol below 32 per
    character, and encoding them gives the text back in lower case. *)
Theorem base32_decode_then_encode (s : list ascii) (decoded : seq) :
  decode_from_base32 s = Ok decoded ->
  decoded = PyBytes (map (find CHARSET) (lower s)) /\
  Forall (fits 5) (items decoded) /\
  length (items decoded) = length s /\
  encode_to_base32 (items decoded) = Ok (lower s).
Proof.
  intros H. unfold decode_from_base32 in H.
  destruct (charset_split (lower s)) as [Hall | [d1 [c [d2 [E [H1 H2]]]]]].
  - rewrite (decode_chars_ok _ Hall []) in H. cbn [bind app] in H.
    rewrite (bytes_ok _ (find_charset_byte _ Hall)) in H.
    injection H as <-. cbn [items]. repeat split.
    + apply find_charset_fit. exact Hall.
    + rewrite length_map. apply lower_length.
    + apply encode_find. exact Hall.
  - rewrite E, (decode_chars_bad d1 d2 c H1 H2 []) in H. discriminate H.
Qed.

Lemma base32_decode_then_encode_witness :
  encode_to_base32 [0; 1; 2; 29] = Ok (lower (text "QpZa")).
Proof.
  exact (proj2 (proj2 (proj2
    (base32_decode_then_encode (text "QpZa") (PyBytes [0; 1; 2; 29])
       eq_refl)))).
Defined.

Lemma index_charset_cases (b : Z) :
  (-32 <= b < 32 /\ exists c, index CHARSET b = Ok c) \/
  (~ (-32 <= b < 32) /\ index CHARSET b = Raise IndexError).
Proof.
  unfold index. change (Z.of_nat (length CHARSET)) with 32.
  set (j := if b <? 0 then b + 32 else b).
  assert (Hj : (0 <= j < 32) <-> (-32 <= b < 32)).
  { subst j. destruct (Z.ltb_spec b 0); lia. }
  destruct (Z.leb_spec 0 j) as [H0 | H0];
    destruct (Z.ltb_spec j 32) as [H1 | H1]; cbn [andb];
    try (right; split; [lia|reflexivity]).
  left. split; [lia|].
  destruct (nth_error CHARSET (Z.to_nat j)) as [c|] eqn:E.
  - exists c. reflexivity.
  - apply nth_error_None in E.
    change (length CHARSET) with 32%nat in E. lia.
Qed.

(** [encode_to_base32] returns exactly when every symbol is a valid index
    of the alphabet, from -32 (counted from the end) to 31, and the only
    exception it raises is [IndexError]. *)
Theorem encode_to_base32_index_error (data : list Z) :
  ((exists cs, encode_to_base32 data = Ok cs) <->
   Forall (fun b => -32 <= b < 32) data) /\
  (forall e, encode_to_base32 data = Raise e -> e = IndexError).
Proof.
  induction data as [|b data [[IH1 IH2] IH3]].
  - split; [split|].
    + intros _. constructor.
    + intros _. exists []. reflexivity.
    + intros e H. discriminate H.
  - cbn [encode_to_base32].
    destruct (index_charset_cases b) as [[Hb [c Hc]] | [Hb Hc]];
      rewrite Hc; cbn [bind].
    + destruct (encode_to_base32 data) as [cs|e'] eqn:E; cbn [bind].
      * split; [split|].
        -- intros _. constructor; [exact Hb|]. apply IH1. exists cs.
           reflexivity.
        -- intros _. eexists. reflexivity.
        -- intros e H. discriminate H.
      * split; [split|].
        -- intros [cs H]. discriminate H.
        -- intros H. inversion H as [|? ? _ Hd]; subst.
           destruct (IH2 Hd) as [cs Hcs]. discriminate Hcs.
        -- intros e H. injection H as <-. apply IH3. reflexivity.
    + split; [split|].
      * intros [cs H]. discriminate H.
      * intros H. inversion H; subst. contradiction.
      * intros e H. injection H as <-. reflexivity.
Qed.

(** ** The checksum and the prefix *)

Lemma low5_lower_char (c : ascii) : low5 (lower_char c) = low5 c.
Proof. destruct c as [[] [] [] [] [] [] [] []]; reflexivity. Qed.

Lemma checksum_polymod_low5 (p q : list ascii) (data : list Z) :
  map low5 p = map low5 q ->
  checksum_polymod p data = checksum_polymod q data.
Proof.
  intros H. rewrite !checksum_polymod_fold. unfold checksum_inputs.
  change (fun char => Z.land (ord char) 31) with low5. rewrite H.
  reflexivity.
Qed.

(** The checksum reads five bits of each prefix character: two prefixes
    whose characters agree on their low five bits have the same checksum
    over every data, and verify the same sequences. *)
Theorem checksum_reads_low_five_bits (p q : list ascii) (data : list Z) :
  map low5 p = map low5 q ->
  calculate_checksum p data = calculate_checksum q data /\
  verify_checksum p data = verify_checksum q data.
Proof.
  intros H. split.
  - rewrite !calculate_checksum_ok, (checksum_polymod_low5 p q _ H).
    reflexivity.
  - unfold verify_checksum. rewrite !verify_checksum_eq.
    rewrite (checksum_polymod_low5 p q _ H). reflexivity.
Qed.

Lemma checksum_reads_low_five_bits_witness :
  calculate_checksum (text "(OoSaT") [1; 2; 3] =
  calculate_checksum (text "hoosat") [1; 2; 3].
Proof.
  exact (proj1 (checksum_reads_low_five_bits (text "(OoSaT") (text "hoosat")
                  [1; 2; 3] eq_refl)).
Defined.

(** For a prefix of code points below 256, the checksum does not tell
    the case of the prefix: there [str.lower] changes a code point by 32
    or not at all. *)
Theorem checksum_ignores_prefix_case (prefix : list ascii) (data : list Z) :
  latin1 prefix ->
  calculate_checksum (lower prefix) data = calculate_checksum prefix data /\
  verify_checksum (lower prefix) data = verify_checksum prefix data.
Proof.
  intros _.
  assert (H : map low5 (lower prefix) = map low5 prefix).
  { unfold lower. rewrite map_map. apply map_ext. apply low5_lower_char. }
  split.
  - rewrite !calculate_checksum_ok, (checksum_polymod_low5 _ _ _ H).
    reflexivity.
  - unfold verify_checksum. rewrite !verify_checksum_eq.
    rewrite (checksum_polymod_low5 _ _ _ H). reflexivity.
Qed.

Lemma checksum_ignores_prefix_case_witness :
  calculate_checksum (lower (text "HooSat")) [1; 2; 3] =
  calculate_checksum (text "HooSat") [1; 2; 3].
Proof.
  refine (proj1 (checksum_ignores_prefix_case (text "HooSat") [1; 2; 3] _)).
  repeat constructor.
Defined.

(** ** What a successful decode guarantees *)

Lemma decode_data_eq (p d : list ascii) :
  lower d = d -> Forall in_charset d ->
  decode_data p d =
  if verify_checksum p (map (find CHARSET) d)
  then match convert_bits
               (drop_last CHECKSUM_LENGTH (map (find CHARSET) d)) 5 8 false
       with
       | [] => Raise IndexError
       | version :: payload => Ok (p, payload, version)
       end
  else Raise ChecksumFailed.
Proof.
  intros Hl Hall. unfold decode_data.
  rewrite (decode_from_base32_ok d Hl Hall). cbn [bind items].
  destruct (verify_checksum p (map (find CHARSET) d)); cbn [negb];
    [|reflexivity].
  set (converted := convert_bits _ 5 8 false).
  assert (Hb : Forall is_byte converted).
  { apply converted_bytes. unfold drop_last. apply Forall_firstn.
    apply find_charset_fit. assumption. }
  destruct converted as [|version rest] eqn:Ec.
  - reflexivity.
  - change (index (version :: rest) 0) with (Ok version).
    cbn [bind skipn]. inversion Hb; subst.
    rewrite (bytes_ok rest) by assumption. reflexivity.
Qed.

Lemma decode_data_ok_inv (p d p' : list ascii) (h : list Z) (v : Z) :
  lower d = d -> Forall in_charset d ->
  decode_data p d = Ok (p', h, v) ->
  p' = p /\
  verify_checksum p (map (find CHARSET) d) = true /\
  convert_bits (drop_last CHECKSUM_LENGTH (map (find CHARSET) d)) 5 8 false =
    v :: h.
Proof.
  intros Hl Hall H. rewrite (decode_data_eq p d Hl Hall) in H.
  destruct (verify_checksum p (map (find CHARSET) d)).
  - destruct (convert_bits _ 5 8 false) as [|version rest].
    + inversion H.
    + inversion H. subst. split; [|split]; reflexivity.
  - inversion H.
Qed.

(** A text that decodes has at least 10 characters; its lower-case form is
    the returned prefix, not empty, a colon and at least 8 characters of
    the alphabet whose symbols carry a verified checksum; the version and
    the payload are the bytes those symbols regroup to, without the
    checksum. *)
Theorem decode_success_checks (s prefix : list ascii) (payload : list Z)
    (version : Z) :
  hoosat_bech32_decode s = Ok (prefix, payload, version) ->
  (10 <= length s)%nat /\
  exists d,
    lower s = prefix ++ colon :: d /\ prefix <> [] /\ lower prefix = prefix /\
    (8 <= length d)%nat /\ Forall in_charset d /\
    verify_checksum prefix (map (find CHARSET) d) = true /\
    convert_bits (drop_last CHECKSUM_LENGTH (map (find CHARSET) d)) 5 8
                 false = version :: payload /\
    Forall is_byte (version :: payload).
Proof.
  intros H. classify s; rewrite Hres in H; try discriminate H.
  rewrite <- Hdd in H.
  destruct (decode_data_ok_inv p d prefix payload version Hld Hall H)
    as [-> [Hver Hconv]].
  split; [assumption|]. exists d. repeat split; try assumption.
  rewrite <- Hconv. apply converted_bytes. unfold drop_last.
  apply Forall_firstn. apply find_charset_fit. assumption.
Qed.

Lemma decode_success_checks_witness :
  exists d,
    lower (text "HOOSAT:QYGDDZLJ4W") = text "hoosat" ++ colon :: d /\
    (8 <= length d)%nat /\
    verify_checksum (text "hoosat") (map (find CHARSET) d) = true /\
    convert_bits (drop_last CHECKSUM_LENGTH (map (find CHARSET) d)) 5 8
                 false = [1].
Proof.
  destruct (decode_success_checks (text "HOOSAT:QYGDDZLJ4W") (text "hoosat")
              [] 1 ltac:(vm_compute; reflexivity))
    as [_ [d [H1 [_ [_ [H2 [_ [H3 [H4 _]]]]]]]]].
  exists d. split; [exact H1|]. split; [exact H2|]. split; [exact H3|].
  exact H4.
Defined.

(** ** Validating an address *)

Lemma text_eqb_eq (s t : list ascii) : text_eqb s t = true <-> s = t.
Proof.
  unfold text_eqb. destruct (list_eq_dec ascii_dec s t); split; congruence.
Qed.

Lemma text_eqb_refl (s : list ascii) : text_eqb s s = true.
Proof. apply text_eqb_eq. reflexivity. Qed.

Lemma validate_address_true (self_prefix address : list ascii) :
  validate_address self_prefix address = true <->
  exists payload version,
    hoosat_bech32_decode address = Ok (self_prefix, payload, version) /\
    payload <> [].
Proof.
  unfold validate_address. split.
  - destruct (hoosat_bech32_decode address) as [[[p h] v]|e];
      [|discriminate].
    destruct (text_eqb p self_prefix) eqn:E; cbn [negb]; [|discriminate].
    apply text_eqb_eq in E. subst p.
    destruct h as [|x h]; cbn; [discriminate|]. intros _.
    exists (x :: h), v. split; [reflexivity|discriminate].
  - intros [h [v [-> Hne]]]. rewrite text_eqb_refl. cbn [negb].
    destruct h; [congruence|reflexivity].
Qed.

(** [validate_address] does not look at the case of the text: two texts
    with the same lower-case form are both accepted or both rejected. *)
Theorem validate_address_case_insensitive (self_prefix s t : list ascii) :
  lower t = lower s ->
  validate_address self_prefix t = validate_address self_prefix s.
Proof.
  intros H. unfold validate_address. rewrite (decode_lower_eq s t H).
  reflexivity.
Qed.

Lemma validate_address_case_insensitive_witness :
  validate_address (text "hoosat")
    (text "HOOSAT:QYQQQQQQQQQQQQQQQQQQQQQQQQQQQQQQQQ6JU4P888") =
  validate_address (text "hoosat")
    (text "hoosat:qyqqqqqqqqqqqqqqqqqqqqqqqqqqqqqqqq6ju4p888").
Proof.
  apply validate_address_case_insensitive. reflexivity.
Defined.

(** An address is accepted by the generator of one prefix at most: a text
    valid for one prefix is invalid for every other. *)
Theorem validate_address_one_prefix (p q address : list ascii) :
  p <> q -> validate_address p address = true ->
  validate_address q address = false.
Proof.
  intros Hne H. apply validate_address_true in H.
  destruct H as [h [v [Hd _]]].
  unfold validate_address. rewrite Hd.
  destruct (text_eqb p q) eqn:E; [|reflexivity].
  apply text_eqb_eq in E. contradiction.
Qed.

Lemma validate_address_one_prefix_witness :
  validate_address (text "hoosattest")
    (text "hoosat:qyqqqqqqqqqqqqqqqqqqqqqqqqqqqqqqqq6ju4p888") = false.
Proof.
  apply (validate_address_one_prefix (text "hoosat")).
  - discriminate.
  - vm_compute. reflexivity.
Defined.

Lemma versioned_text_decodes (prefix : list ascii) (version : Z)
    (payload : list Z) :
  prefix <> [] -> lower prefix = prefix ->
  is_byte version -> Forall is_byte payload ->
  exists data_string,
    hoosat_bech32_decode (prefix ++ colon :: data_string) =
      Ok (prefix, payload, version).
Proof.
  intros Hne Hlow Hver Hpay.
  assert (Hdata : Forall (fits 8) (version :: payload)).
  { apply fits8_byte. constructor; assumption. }
  destruct (convert_bits_padded_spec (version :: payload) 8 5
              ltac:(lia) ltac:(lia) Hdata) as [Hfit _].
  cbv zeta in Hfit.
  set (converted := convert_bits (version :: payload) 8 5 true) in *.
  set (checksum := checksum_symbols (checksum_polymod prefix converted)).
  assert (Hall : Forall (fits 5) (converted ++ checksum)).
  { apply Forall_app. split; [assumption|apply checksum_symbols_fit]. }
  destruct (encode_to_base32_spec _ Hall)
    as [cs [Hcs [Hin [Hl [Hnc [Hmap Hlen]]]]]].
  exists cs.
  assert (Hcslen : (8 <= length cs)%nat).
  { rewrite Hlen, length_app. subst checksum.
    rewrite checksum_symbols_length. lia. }
  assert (Hplen : (1 <= length prefix)%nat).
  { destruct prefix; [congruence|cbn; lia]. }
  rewrite (decode_split _ prefix cs).
  - replace ((length prefix <? 1)%nat || (length cs <? 8)%nat) with false.
    2:{ symmetry. apply orb_false_intro; apply Nat.ltb_ge; assumption. }
    rewrite (decode_data_eq prefix cs Hl Hin), Hmap. subst checksum.
    rewrite verify_checksum_appended.
    rewrite drop_last_app by apply checksum_symbols_length.
    subst converted. rewrite (convert_bits_roundtrip _ Hdata). reflexivity.
  - rewrite length_app. cbn [length]. lia.
  - unfold lower. rewrite map_app. cbn [map]. fold (lower prefix).
    fold (lower cs). rewrite Hlow, Hl. reflexivity.
  - exact Hnc.
Qed.

(** [validate_address] checks neither the length of the payload nor the
    version: for a prefix in lower case, not empty, every version byte and
    every payload of one byte or more, whatever its length, there is a
    text that decodes to the payload and the version and is valid. *)
Theorem validate_address_any_payload_and_version (self_prefix : list ascii)
    (payload : list Z) (version : Z) :
  self_prefix <> [] -> lower self_prefix = self_prefix ->
  is_byte version -> Forall is_byte payload -> payload <> [] ->
  exists address,
    hoosat_bech32_decode address = Ok (self_prefix, payload, version) /\
    validate_address self_prefix address = true.
Proof.
  intros Hne Hl Hv Hb Hp.
  destruct (versioned_text_decodes self_prefix version payload Hne Hl Hv Hb)
    as [cs H].
  exists (self_prefix ++ colon :: cs). split; [exact H|].
  apply validate_address_true.
  exists payload, version. split; [exact H|exact Hp].
Qed.

Lemma validate_address_any_payload_and_version_witness :
  exists address,
    hoosat_bech32_decode address = Ok (text "hoosat", [42], 200) /\
    validate_address (text "hoosat") address = true.
Proof.
  apply validate_address_any_payload_and_version.
  - discriminate.
  - reflexivity.
  - unfold is_byte. lia.
  - repeat constructor; unfold is_byte; lia.
  - discriminate.
Defined.

(** ** Address information *)

Lemma network_of_prefix_spec (prefix : list ascii) (net : network) :
  network_of_prefix NETWORK_PREFIXES prefix = Some net <->
  prefix = prefix_of net.
Proof.
  cbn [network_of_prefix NETWORK_PREFIXES]. split.
  - destruct (text_eqb prefix (text "hoosat")) eqn:E1.
    + intros H. injection H as <-. apply text_eqb_eq. exact E1.
    + destruct (text_eqb prefix (text "hoosattest")) eqn:E2;
        [|discriminate].
      intros H. injection H as <-. apply text_eqb_eq. exact E2.
  - intros ->. destruct net; reflexivity.
Qed.

(** [get_address_info] and [validate_address] agree but for the empty
    payload: the generator of a network accepts an address exactly when
    the information is the valid one, for that network, with a payload
    that is not empty. *)
Theorem validate_address_iff_info (net : network) (address : list ascii) :
  validate_address (prefix_of net) address = true <->
  exists payload version,
    payload <> [] /\
    get_address_info address =
      Valid address net (prefix_of net) payload version.
Proof.
  rewrite validate_address_true. unfold get_address_info. split.
  - intros [h [v [Hd Hne]]]. exists h, v. split; [exact Hne|].
    rewrite Hd.
    rewrite (proj2 (network_of_prefix_spec (prefix_of net) net) eq_refl).
    reflexivity.
  - intros [h [v [Hne H]]].
    destruct (hoosat_bech32_decode address) as [[[p h'] v']|e];
      [|discriminate H].
    destruct (network_of_prefix NETWORK_PREFIXES p) as [net'|] eqn:E;
      [|discriminate H].
    injection H as -> -> -> ->. exists h, v. split; [reflexivity|exact Hne].
Qed.

(** The information is the valid one exactly when the text decodes to a
    prefix of the table, whatever the payload: so for the text of a
    version byte alone, which [validate_address] rejects. *)
Theorem info_valid_with_empty_payload :
  forall net : network,
  exists address version,
    get_address_info address =
      Valid address net (prefix_of net) [] version /\
    validate_address (prefix_of net) address = false.
Proof.
  intros net.
  assert (H : exists address,
             hoosat_bech32_decode address = Ok (prefix_of net, [], 1)).
  { destruct net.
    - exists (text "hoosat:qygddzlj4w"). vm_compute. reflexivity.
    - exists (text "hoosattest:qy82pk5fz7"). vm_compute. reflexivity. }
  destruct H as [address H]. exists address, 1.
  unfold get_address_info, validate_address. rewrite H.
  rewrite (proj2 (network_of_prefix_spec (prefix_of net) net) eq_refl).
  rewrite text_eqb_refl. split; reflexivity.
Qed.

(** ** The WIF decoder *)

Section WIFDecoder.
Context {L : WifLibrary}.

Lemma drop_last_length {A} (n : nat) (xs : list A) :
  length (drop_last n xs) = (length xs - n)%nat.
Proof. unfold drop_last. rewrite length_firstn. lia. Qed.

(** When [wif_to_private_key] returns, the text decodes to 37 or 38 bytes
    whose last four are the head of the double hash of the others, and the
    key is the 32 bytes from position 1 on: the first byte and, of 38, the
    byte before the checksum are not looked at. *)
Theorem wif_success_shape (wif : list ascii) (key : list Z) :
  wif_to_private_key wif = Ok key ->
  exists decoded,
    b58decode wif = Ok decoded /\
    (length decoded = 37 \/ length decoded = 38)%nat /\
    take_last 4 decoded =
      firstn 4 (sha256 (sha256 (drop_last 4 decoded))) /\
    key = firstn 32 (skipn 1 decoded) /\
    length key = 32%nat.
Proof.
  unfold wif_to_private_key. intros H.
  destruct (b58decode wif) as [decoded|e]; [|discriminate H].
  cbn [bind] in H. exists decoded. split; [reflexivity|].
  destruct (list_eqb (take_last 4 decoded)
              (firstn 4 (sha256 (sha256 (drop_last 4 decoded))))) eqn:E;
    cbn [negb] in H; [|discriminate H].
  apply list_eqb_eq in E.
  pose proof (drop_last_length 4 decoded) as Hlen.
  assert (Hkey : forall n, length decoded = n -> (33 <= n)%nat ->
                   length (firstn 32 (skipn 1 decoded)) = 32%nat).
  { intros n Hn Hle. rewrite length_firstn, length_skipn. lia. }
  destruct (Nat.eqb_spec (length (drop_last 4 decoded)) 33) as [H33 | _].
  - assert (Hn : length decoded = 37%nat) by lia.
    assert (Ek : key = firstn 32 (skipn 1 decoded)).
    { injection H as <-. unfold drop_last. rewrite Hn.
      change (37 - 4)%nat with (1 + 32)%nat.
      symmetry. apply firstn_skipn_comm. }
    split; [left; exact Hn|]. split; [exact E|]. split; [exact Ek|].
    rewrite Ek. apply (Hkey 37%nat); [exact Hn|lia].
  - destruct (Nat.eqb_spec (length (drop_last 4 decoded)) 34) as [H34 | _];
      [|discriminate H].
    assert (Hn : length decoded = 38%nat) by lia.
    assert (Ek : key = firstn 32 (skipn 1 decoded)).
    { injection H as <-.
      change (firstn (length (skipn 1 (drop_last 4 decoded)) - 1)
                (skipn 1 (drop_last 4 decoded)) =
              firstn 32 (skipn 1 decoded)).
      rewrite length_skipn, H34.
      change (34 - 1 - 1)%nat with 32%nat. unfold drop_last. rewrite Hn.
      change (38 - 4)%nat with (1 + 33)%nat.
      rewrite <- firstn_skipn_comm, firstn_firstn. reflexivity. }
    split; [right; exact Hn|]. split; [exact E|]. split; [exact Ek|].
    rewrite Ek. apply (Hkey 38%nat); [exact Hn|lia].
Qed.

Context {HL : WifLibraryLaws L}.

(** A text that decodes to fewer than four bytes is rejected for its
    checksum, not for its length: the slice [decoded[-4:]] is then shorter
    than the four bytes it is compared with. *)
Theorem wif_short_buffer_checksum_error (wif : list ascii)
    (decoded : list Z) :
  b58decode wif = Ok decoded -> (length decoded < 4)%nat ->
  wif_to_private_key wif = Raise InvalidWifChecksum.
Proof.
  intros H Hlen. unfold wif_to_private_key. rewrite H. cbn [bind].
  destruct (list_eqb (take_last 4 decoded)
              (firstn 4 (sha256 (sha256 (drop_last 4 decoded))))) eqn:E;
    [|reflexivity].
  apply list_eqb_eq in E. apply (f_equal (@length Z)) in E.
  rewrite wif_checksum_length in E. unfold take_last in E.
  rewrite length_skipn in E. lia.
Qed.

(** The decoder accepts every version byte and every byte in the place of
    the compression marker: a correct checksum over [version], 32 bytes
    and, or not, one more byte gives the 32 bytes. *)
Theorem wif_version_and_marker_ignored (version marker : Z)
    (secret : list Z) :
  length secret = 32%nat -> Forall is_byte secret ->
  is_byte version -> is_byte marker ->
  let long := version :: secret ++ [marker] in
  let short := version :: secret in
  wif_to_private_key
    (b58encode (long ++ firstn 4 (sha256 (sha256 long)))) = Ok secret /\
  wif_to_private_key
    (b58encode (short ++ firstn 4 (sha256 (sha256 short)))) = Ok secret.
Proof.
  intros Hlen Hb Hv Hm long short. split.
  - rewrite wif_roundtrip_payload.
    + subst long. cbn [length]. rewrite length_app, Hlen. cbn [length Nat.add].
      cbn [Nat.eqb skipn]. f_equal. apply drop_last_app. reflexivity.
    + constructor; [exact Hv|]. apply Forall_app. split; [exact Hb|].
      constructor; [exact Hm|constructor].
  - rewrite wif_roundtrip_payload.
    + subst short. cbn [length]. rewrite Hlen. reflexivity.
    + constructor; assumption.
Qed.

(** [private_key_to_wif] does not check the length of the key, and the
    decoder tells the marker from the length alone: a key of 31 bytes with
    the marker comes back with the marker appended, a key of 33 bytes
    without it comes back without its last byte, and every length other
    than those and 32 is rejected. *)
Theorem wif_roundtrip_any_length (net : network) (key : list Z)
    (compressed : bool) :
  Forall is_byte key ->
  wif_to_private_key (private_key_to_wif net key compressed) =
  if compressed
  then if (length key =? 31)%nat then Ok (key ++ [0x01])
       else if (length key =? 32)%nat then Ok key
       else Raise InvalidWifLength
  else if (length key =? 32)%nat then Ok key
       else if (length key =? 33)%nat then Ok (firstn 32 key)
       else Raise InvalidWifLength.
Proof.
  intros Hb. unfold private_key_to_wif.
  set (version_byte := match net with
                       | mainnet => [0x80] | testnet => [0xef] end).
  assert (Hv : exists v, version_byte = [v] /\ is_byte v).
  { destruct net; eexists; (split; [reflexivity|unfold is_byte; lia]). }
  destruct Hv as [v [-> Hv]].
  destruct compressed; rewrite wif_roundtrip_payload.
  - rewrite !length_app. cbn [length app skipn].
    destruct (Nat.eqb_spec (length key) 31) as [E | N31].
    + rewrite E. reflexivity.
    + destruct (Nat.eqb_spec (length key) 32) as [E | N32].
      * rewrite E. cbn [Nat.add Nat.eqb]. f_equal. apply drop_last_app.
        reflexivity.
      * destruct (Nat.eqb_spec (1 + length key + 1) 33); [lia|].
        destruct (Nat.eqb_spec (1 + length key + 1) 34); [lia|].
        reflexivity.
  - apply Forall_app. split.
    + constructor; assumption.
    + constructor; [unfold is_byte; lia|constructor].
  - rewrite length_app. cbn [length app skipn].
    destruct (Nat.eqb_spec (length key) 32) as [E | N32].
    + rewrite E. reflexivity.
    + destruct (Nat.eqb_spec (length key) 33) as [E | N33].
      * rewrite E. cbn [Nat.add Nat.eqb]. f_equal. unfold drop_last.
        rewrite E. reflexivity.
      * destruct (Nat.eqb_spec (1 + length key) 33); [lia|].
        destruct (Nat.eqb_spec (1 + length key) 34); [lia|].
        reflexivity.
  - constructor; assumption.
Qed.
End WIFDecoder.

Lemma wif_success_shape_witness :
  exists decoded,
    @b58decode example_library
      (@private_key_to_wif example_library testnet (repeat 7 32) false) =
      Ok decoded /\
    (length decoded = 37 \/ length decoded = 38)%nat /\
    take_last 4 decoded =
      firstn 4 (@sha256 example_library
                  (@sha256 example_library (drop_last 4 decoded))) /\
    repeat 7 32 = firstn 32 (skipn 1 decoded) /\
    length (repeat 7 32) = 32%nat.
Proof.
  apply (@wif_success_shape example_library). vm_compute. reflexivity.
Defined.

Lemma wif_short_buffer_checksum_error_witness :
  @wif_to_private_key example_library (text "abc") =
  Raise InvalidWifChecksum.
Proof.
  apply (@wif_short_buffer_checksum_error example_library
           example_library_laws (text "abc") [97; 98; 99]).
  - reflexivity.
  - simpl. lia.
Defined.

Lemma wif_version_and_marker_ignored_witness :
  @wif_to_private_key example_library
    (@b58encode example_library
       ((0 :: repeat 7 32 ++ [255]) ++
        firstn 4 (@sha256 example_library
                    (@sha256 example_library
                       (0 :: repeat 7 32 ++ [255]))))) =
  Ok (repeat 7 32).
Proof.
  refine (proj1 (@wif_version_and_marker_ignored example_library
                   example_library_laws 0 255 (repeat 7 32) _ _ _ _)).
  - reflexivity.
  - apply Forall_forall. intros x Hx. apply repeat_spec in Hx. subst.
    unfold is_byte. lia.
  - unfold is_byte. lia.
  - unfold is_byte. lia.
Defined.

Lemma wif_roundtrip_any_length_witness :
  @wif_to_private_key example_library
    (@private_key_to_wif example_library mainnet (repeat 7 31) true) =
  Ok (repeat 7 31 ++ [1]).
Proof.
  apply (@wif_roundtrip_any_length example_library example_library_laws
           mainnet (repeat 7 31) true).
  apply Forall_forall. intros x Hx. apply repeat_spec in Hx. subst.
  unfold is_byte. lia.
Defined.

(** ** Generating an address *)

(** With every hash and curve library, [public_key_to_address] raises
    [TypeError] on every public key, as [hoosat_bech32_encode] does; so
    [generate_address] never returns an address: it raises [TypeError]
    whenever the public key is derived. *)
Theorem generate_address_never_returns {L : WifLibrary} {H : HashLibrary}
    {C : CurveLibrary} (net : network) (self_prefix : list ascii)
    (key : list Z) (compressed : bool) :
  public_key_to_address self_prefix key = Raise TypeError /\
  generate_address net key compressed =
    match private_key_to_public_key key compressed with
    | None => None
    | Some _ => Some (Raise TypeError)
    end.
Proof.
  assert (E : forall p k, public_key_to_address p k = Raise TypeError).
  { intros p k. unfold public_key_to_address, hoosat_bech32_encode.
    cbn [add bind items]. rewrite calculate_checksum_ok. reflexivity. }
  split; [apply E|]. unfold generate_address.
  destruct (private_key_to_public_key key compressed) as [pk|];
    [|reflexivity].
  rewrite E. reflexivity.
Qed.
